(** * recipe_finder.py: ingredient-based recipe matching

    A shallow embedding of [src/recipe_finder.py] and the proofs of the
    properties stated about it.

    Modelling conventions.
    - A Python [str] is a [string]; a character is a code point in the range
      0..255 (the Latin-1 block of Unicode), on which [str.isspace] and
      [str.lower] are the finite tables below.
    - A Python [int] is a [Z].
    - A Python [float] is the rational number it denotes ([Q], kept in lowest
      terms); every arithmetic operation rounds its exact result to the
      nearest binary64 value, ties to even.  All floats of the program lie in
      [-100, 100], so infinities and NaN never arise; [0.0] and [-0.0] denote
      the same rational, which is sound here because the program only
      compares floats and truncates them.
    - [set(available)] is a [gset string].
    - An operation that can raise returns a [result]; [print] appends to the
      text written on standard output. *)

From Stdlib Require Import ZArith QArith Qround Qabs Ascii String List Sorted Permutation Lia Bool.
From stdpp Require Import base decidable list gmap strings pretty.

Local Open Scope Z_scope.

(** ** Exceptions *)

Inductive exn : Type :=
| ZeroDivisionError.

Inductive result (A : Type) : Type :=
| Ok (a : A)
| Raise (e : exn).

Arguments Ok {A} a.
Arguments Raise {A} e.

Global Instance result_ret : MRet result := fun _ a => Ok a.

Global Instance result_bind : MBind result := fun _ _ k m =>
  match m with
  | Ok a => k a
  | Raise e => Raise e
  end.

(** ** Strings *)

Module PyStr.

(** [str.isspace] on the code points 0..255: TAB..CR, FS..US, SPACE, NEL
    and NO-BREAK SPACE. *)
Definition is_space (c : ascii) : bool :=
  let n := N_of_ascii c in
  ((9 <=? n) && (n <=? 13) || (28 <=? n) && (n <=? 32)
   || (n =? 133) || (n =? 160))%N.

(** [str.lower] on one code point of 0..255: A..Z and the upper-case
    letters of 192..222 (all but the multiplication sign 215) move up
    by 32. *)
Definition lower_char (c : ascii) : ascii :=
  let n := N_of_ascii c in
  if ((65 <=? n) && (n <=? 90) || (192 <=? n) && (n <=? 214)
      || (216 <=? n) && (n <=? 222))%N
  then ascii_of_N (n + 32) else c.

Fixpoint lower (s : string) : string :=
  match s with
  | EmptyString => EmptyString
  | String c s' => String (lower_char c) (lower s')
  end.

Fixpoint lstrip (s : string) : string :=
  match s with
  | EmptyString => EmptyString
  | String c s' => if is_space c then lstrip s' else s
  end.

Fixpoint rstrip (s : string) : string :=
  match s with
  | EmptyString => EmptyString
  | String c s' =>
      match rstrip s' with
      | EmptyString => if is_space c then EmptyString else String c EmptyString
      | r => String c r
      end
  end.

(** [s.strip()]: white space removed at both ends. *)
Definition strip (s : string) : string := lstrip (rstrip s).

(** [s.split(sep)] for a separator of one character: one piece more than
    there are separators, empty pieces kept. *)
Fixpoint split (sep : ascii) (s : string) : list string :=
  match s with
  | EmptyString => [EmptyString]
  | String c s' =>
      if Ascii.eqb c sep then EmptyString :: split sep s'
      else match split sep s' with
           | p :: ps => String c p :: ps
           | [] => [String c EmptyString]
           end
  end.

(** [c in s] for a character [c]. *)
Fixpoint occurs (c : ascii) (s : string) : bool :=
  match s with
  | EmptyString => false
  | String d s' => Ascii.eqb d c || occurs c s'
  end.

(** [sep.join(l)]. *)
Definition join (sep : string) (l : list string) : string :=
  String.concat sep l.

(** Truth value of a string: non-empty. *)
Definition truthy (s : string) : bool :=
  match s with
  | EmptyString => false
  | String _ _ => true
  end.

(** The line feed that [print] appends. *)
Definition nl : string := String (ascii_of_N 10) EmptyString.

(** [str(n)] for an [int]. *)
Definition str_int (n : Z) : string := pretty n.

End PyStr.

(** ** Floats *)

Module PyFloat.

Definition float : Type := Q.

(** Nearest integer to [a / b] for [0 < b], ties to even. *)
Definition rne (a b : Z) : Z :=
  let q := a / b in
  let r := a mod b in
  match 2 * r ?= b with
  | Lt => q
  | Gt => q + 1
  | Eq => if Z.even q then q else q + 1
  end.

(** [2^e <= n / d], for any integer [e]. *)
Definition pow2_le (e : Z) (n d : positive) : bool :=
  if 0 <=? e then Zpos d * 2 ^ e <=? Zpos n
  else Zpos d <=? Zpos n * 2 ^ (- e).

(** The integer [e] with [2^e <= n / d < 2^(e+1)]. *)
Definition ilog2 (n d : positive) : Z :=
  let e0 := Z.log2 (Zpos n) - Z.log2 (Zpos d) in
  if pow2_le e0 n d then e0 else e0 - 1.

(** Exponent of the unit in the last place of binary64 at [n / d]:
    53 significant bits, least exponent -1074. *)
Definition ulp_exp (n d : positive) : Z :=
  Z.max (ilog2 n d - 52) (-1074).

(** [m * 2^q] as a rational in lowest terms. *)
Definition scale2 (m q : Z) : Q :=
  Qred (if 0 <=? q then inject_Z (m * 2 ^ q)
        else Qmake m (Z.to_pos (2 ^ (- q)))).

Definition round_pos (n d : positive) : Q :=
  let q := ulp_exp n d in
  let m := if 0 <=? q then rne (Zpos n) (Zpos d * 2 ^ q)
           else rne (Zpos n * 2 ^ (- q)) (Zpos d) in
  scale2 m q.

(** The binary64 value nearest to the rational [x], ties to even. *)
Definition round_b64 (x : Q) : float :=
  match Qnum x with
  | Z0 => 0%Q
  | Zpos n => round_pos n (Qden x)
  | Zneg n => Qred (- round_pos n (Qden x))
  end.

(** The literal [0.0]. *)
Definition zero : float := 0%Q.

(** [a / b] on two [int]s: the correctly rounded quotient, or
    [ZeroDivisionError]. *)
Definition truediv (a b : Z) : result float :=
  if b =? 0 then Raise ZeroDivisionError
  else Ok (round_b64 (inject_Z a / inject_Z b)).

(** [x * n] for a float [x] and an [int] [n] that converts exactly. *)
Definition mul_int (x : float) (n : Z) : float :=
  round_b64 (x * inject_Z n).

(** [-x]. *)
Definition neg (x : float) : float := Qred (- x).

(** [round(x, 3)]: the decimal with three places nearest to the exact
    value of [x] (ties to even), converted back to the nearest float. *)
Definition round3 (x : float) : float :=
  round_b64 (Qmake (rne (Qnum x * 1000) (Zpos (Qden x))) 1000).

(** [int(x)]: truncation towards zero. *)
Definition to_int (x : float) : Z := Z.quot (Qnum x) (Zpos (Qden x)).

Definition eqb (x y : float) : bool := Qeq_bool x y.
Definition ltb (x y : float) : bool :=
  match Qcompare x y with Lt => true | _ => false end.

End PyFloat.

Import PyStr PyFloat.

(** ** The program *)

(** A recipe of the catalog: [{"name": ..., "ingredients": [...]}]. *)
Record Recipe : Type := mkRecipe {
  r_name : string;
  r_ingredients : list string
}.

(** A match-result entry, the dictionary built in [find_matches]. *)
Record Entry : Type := mkEntry {
  name : string;
  matched : Z;
  total : Z;
  score : float;
  missing : Z;
  ingredients : list string
}.

(** The dictionary returned by [find_matches]. *)
Record MatchResult : Type := mkResult {
  full_matches : list Entry;
  partial_matches : list Entry
}.

Definition SAMPLE_RECIPES : list Recipe :=
  [ mkRecipe "Pancakes" ["flour"; "milk"; "egg"; "baking powder"; "salt"; "butter"];
    mkRecipe "Omelette" ["egg"; "salt"; "pepper"; "butter"; "onion"];
    mkRecipe "Tomato Pasta" ["pasta"; "tomato"; "garlic"; "olive oil"; "salt"; "basil"];
    mkRecipe "Grilled Cheese" ["bread"; "cheese"; "butter"];
    mkRecipe "Veggie Salad" ["lettuce"; "tomato"; "cucumber"; "olive oil"; "salt"; "lemon"];
    mkRecipe "French Toast" ["bread"; "egg"; "milk"; "butter"; "cinnamon"] ].

Definition normalize (ing : string) : string := lower (strip ing).

Definition parse_input (arg : string) : list string :=
  let parts :=
    List.map strip (List.filter (fun p => truthy (strip p)) (split "," arg)) in
  List.map normalize parts.

(** [sum(...)] over a sequence of [int]s. *)
Definition py_sum (l : list Z) : Z := fold_left Z.add l 0.

(** [len(l)]. *)
Definition len {A : Type} (l : list A) : Z := Z.of_nat (List.length l).

Definition score_recipe (available : list string) (recipe : Recipe)
  : result (float * Z * Z) :=
  let r_ings := List.map normalize (r_ingredients recipe) in
  let available_set : gset string := list_to_set available in
  let matched :=
    py_sum (List.map (fun _ => 1)
              (List.filter (fun i => bool_decide (i ∈ available_set)) r_ings)) in
  let total := len r_ings in
  score ← (if negb (total =? 0) then truediv matched total else Ok zero);
  Ok (score, matched, total).

(** The sort key [(-x["score"], -x["matched"], x["name"])]. *)
Definition sort_key (x : Entry) : float * Z * string :=
  (neg (score x), - matched x, name x).

(** [k1 < k2] on key tuples: the first component on which the two differ
    decides. *)
Definition key_lt (k1 k2 : float * Z * string) : bool :=
  let '(s1, m1, n1) := k1 in
  let '(s2, m2, n2) := k2 in
  if negb (PyFloat.eqb s1 s2) then PyFloat.ltb s1 s2
  else if negb (m1 =? m2) then m1 <? m2
  else String.ltb n1 n2.

(** [list.sort(key=...)] is stable and compares keys with [<] only.  As the
    keys are totally ordered, the outcome is that of the stable insertion
    sort: each element goes in front of the first one with a strictly
    greater key. *)
Fixpoint insert_by (x : Entry) (l : list Entry) : list Entry :=
  match l with
  | [] => [x]
  | y :: l' =>
      if key_lt (sort_key x) (sort_key y) then x :: y :: l'
      else y :: insert_by x l'
  end.

Definition sort_entries (l : list Entry) : list Entry :=
  fold_left (fun acc x => insert_by x acc) l [].

(** The [for r in recipes] loop, with the two lists it appends to. *)
Fixpoint find_matches_loop (available : list string) (recipes : list Recipe)
    (full partial : list Entry) : result (list Entry * list Entry) :=
  match recipes with
  | [] => Ok (full, partial)
  | r :: recipes' =>
      '(score, matched, total) ← score_recipe available r;
      let entry :=
        {| name := r_name r; matched := matched; total := total;
           score := round3 score; missing := total - matched;
           ingredients := r_ingredients r |} in
      if matched =? total then
        find_matches_loop available recipes' (full ++ [entry]) partial
      else if 0 <? matched then
        find_matches_loop available recipes' full (partial ++ [entry])
      else
        find_matches_loop available recipes' full partial
  end.

Definition find_matches (available : list string) (recipes : list Recipe)
  : result MatchResult :=
  '(full, partial) ← find_matches_loop available recipes [] [];
  let partial := sort_entries partial in
  let full := sort_entries full in
  Ok {| full_matches := full; partial_matches := partial |}.

(** [print(s)]: the text and a line feed. *)
Definition print (s : string) : string := s +:+ nl.

(** The line printed for one full match. *)
Definition full_line (r : Entry) : string :=
  print ("- " +:+ name r +:+ " (matches: " +:+ str_int (matched r) +:+ "/"
         +:+ str_int (total r) +:+ ")").

(** The two lines printed for one partial match. *)
Definition partial_lines (r : Entry) : string :=
  let pct := to_int (mul_int (score r) 100) in
  print ("- " +:+ name r +:+ ": " +:+ str_int pct +:+ "% ("
         +:+ str_int (matched r) +:+ "/" +:+ str_int (total r)
         +:+ ") -- missing " +:+ str_int (missing r) +:+ " ingredient(s)")
  +:+ print ("    Ingredients: " +:+ join ", " (ingredients r)).

(** [for r in l: ...]: the output of the iterations, in order. *)
Fixpoint print_each (body : Entry -> string) (l : list Entry) : string :=
  match l with
  | [] => ""
  | r :: l' => body r +:+ print_each body l'
  end.

(** The text [pretty_print] writes on standard output. *)
Definition pretty_print (res : MatchResult) : string :=
  print (nl +:+ "=== Full matches (you can fully make these) ===")
  +:+ (match full_matches res with
      | _ :: _ => print_each full_line (full_matches res)
      | [] => print "No full matches found."
      end)
  +:+ print (nl +:+ "=== Partial matches (ranked) ===")
  +:+ (match partial_matches res with
      | _ :: _ => print_each partial_lines (partial_matches res)
      | [] => print "No partial matches found."
      end).

Definition prompt : string :=
  "Enter your available ingredients (comma-separated), e.g. eggs,milk,tomato:"
  +:+ nl +:+ "> ".

(** [main], over the matcher and the catalog it calls.  [argv] is
    [sys.argv]; [line] is the line [input] reads when it is called (the
    prompt goes to standard output).  The result is the text written on
    standard output, or the exception that ended the run. *)
Definition main_with
    (matcher : list string -> list Recipe -> result MatchResult)
    (catalog : list Recipe) (argv : list string) (line : string)
  : result string :=
  let '(out, available) :=
    match argv with
    | _ :: user_input :: _ => ("", parse_input user_input)
    | _ => (prompt, parse_input line)
    end in
  match available with
  | [] => Ok (out +:+ print "No ingredients provided. Exiting.")
  | _ :: _ =>
      let out := out +:+ print ("Available (normalized): " +:+ join ", " available) in
      res ← matcher available catalog;
      Ok (out +:+ pretty_print res)
  end.

Definition main : list string -> string -> result string :=
  main_with find_matches SAMPLE_RECIPES.

(** [parse_input] as the specification words it: split on the comma, trim
    every piece, drop the pieces that are empty once trimmed, lower-case the
    rest. *)
Definition parse_input_spec (arg : string) : list string :=
  List.map lower (List.filter truthy (List.map strip (split "," arg))).

(** The order in which the specification ranks entries: [e1] may stand
    before [e2] when its score is greater, or the scores are equal and its
    matched count is greater, or both are equal and its name is not the
    greater one in the order of the code points. *)
Definition ranks_before (e1 e2 : Entry) : Prop :=
  (score e2 < score e1)%Q
  \/ ((score e1 == score e2)%Q
      /\ (matched e2 < matched e1
          \/ (matched e1 = matched e2
              /\ String.leb (name e1) (name e2) = true))).

(** [y] does not come strictly before [x] in the order of the sort keys. *)
Definition not_after (x y : Entry) : Prop :=
  key_lt (sort_key y) (sort_key x) = false.

(** The number of positions of [ings] whose normalized ingredient is one of
    the tokens of [available]. *)
Definition count_positions (available ings : list string) : Z :=
  Z.of_nat
    (List.length
       (List.filter
          (fun i => bool_decide (normalize (nth i ings EmptyString) ∈ available))
          (seq 0 (List.length ings)))).

(** The score of a recipe with [m] ingredients matched out of [t], before
    [find_matches] rounds it. *)
Definition score_of (m t : Z) : float :=
  if t =? 0 then zero else round_b64 (inject_Z m / inject_Z t).

(** The entry [find_matches] builds for a recipe. *)
Definition entry_of (available : list string) (r : Recipe) : Entry :=
  let m := count_positions available (r_ingredients r) in
  let t := len (r_ingredients r) in
  {| name := r_name r; matched := m; total := t;
     score := round3 (score_of m t); missing := t - m;
     ingredients := r_ingredients r |}.

(** The two tests of the loop of [find_matches], on an entry. *)
Definition is_full (e : Entry) : bool := matched e =? total e.
Definition is_partial (e : Entry) : bool :=
  negb (matched e =? total e) && (0 <? matched e).

(** A string of white space only. *)
Fixpoint all_space (s : string) : bool :=
  match s with
  | EmptyString => true
  | String c s' => is_space c && all_space s'
  end.

(** A token that [normalize] leaves as it is. *)
Definition is_normal (x : string) : bool := String.eqb (normalize x) x.

(** Two entries with the same sort key: neither key is less than the
    other. *)
Definition same_key (e1 e2 : Entry) : bool :=
  negb (key_lt (sort_key e1) (sort_key e2))
  && negb (key_lt (sort_key e2) (sort_key e1)).

(** The test that an entry goes to one of the two lists. *)
Definition is_listed (e : Entry) : bool := is_full e || is_partial e.


(** * Properties of the string operations *)

Section StringFacts.

Lemma is_space_lower_char c : is_space (lower_char c) = is_space c.
Proof. destruct c as [[] [] [] [] [] [] [] []]; reflexivity. Qed.

Lemma lower_char_idem c : lower_char (lower_char c) = lower_char c.
Proof. destruct c as [[] [] [] [] [] [] [] []]; reflexivity. Qed.

Lemma lower_idem s : lower (lower s) = lower s.
Proof.
  induction s as [|c s IH]; simpl; [reflexivity|].
  now rewrite lower_char_idem, IH.
Qed.

Lemma truthy_lower s : truthy (lower s) = truthy s.
Proof. destruct s; reflexivity. Qed.

Lemma truthy_true s : truthy s = true <-> s <> EmptyString.
Proof. destruct s; simpl; split; congruence. Qed.

Lemma lstrip_lower s : lstrip (lower s) = lower (lstrip s).
Proof.
  induction s as [|c s IH]; simpl; [reflexivity|].
  rewrite is_space_lower_char. destruct (is_space c); auto.
Qed.

Lemma rstrip_lower s : rstrip (lower s) = lower (rstrip s).
Proof.
  induction s as [|c s IH]; simpl; [reflexivity|].
  rewrite IH, is_space_lower_char.
  destruct (rstrip s); simpl; [destruct (is_space c)|]; reflexivity.
Qed.

Lemma strip_lower s : strip (lower s) = lower (strip s).
Proof. unfold strip. now rewrite rstrip_lower, lstrip_lower. Qed.

Lemma lstrip_idem s : lstrip (lstrip s) = lstrip s.
Proof.
  induction s as [|c s IH]; simpl; [reflexivity|].
  destruct (is_space c) eqn:E; [assumption|]. simpl. now rewrite E.
Qed.

Lemma rstrip_idem s : rstrip (rstrip s) = rstrip s.
Proof.
  induction s as [|c s IH]; simpl; [reflexivity|].
  destruct (rstrip s) as [|d r] eqn:E.
  - destruct (is_space c) eqn:Ec; simpl; [reflexivity|]. now rewrite Ec.
  - change (rstrip (String c (String d r)))
      with (match rstrip (String d r) with
            | EmptyString =>
                if is_space c then EmptyString else String c EmptyString
            | r' => String c r'
            end).
    now rewrite IH.
Qed.

Lemma rstrip_lstrip s : rstrip (lstrip s) = lstrip (rstrip s).
Proof.
  induction s as [|c s IH]; [reflexivity|].
  cbn [lstrip rstrip]. destruct (is_space c) eqn:Ec.
  - rewrite IH. destruct (rstrip s); simpl; [reflexivity|]. now rewrite Ec.
  - cbn [rstrip]. destruct (rstrip s); simpl; now rewrite Ec.
Qed.

Lemma strip_idem s : strip (strip s) = strip s.
Proof.
  unfold strip.
  now rewrite rstrip_lstrip, lstrip_idem, rstrip_idem.
Qed.

(** A stripped string neither starts nor ends with white space. *)
Lemma lstrip_head s c s' : lstrip s = String c s' -> is_space c = false.
Proof.
  induction s as [|d s IH]; simpl; [discriminate|].
  destruct (is_space d) eqn:E; [assumption|]. congruence.
Qed.

(** [split] and [join] are inverse to each other, and no piece holds the
    separator. *)
Lemma split_nonempty sep s : split sep s <> [].
Proof.
  destruct s as [|c s]; simpl; [discriminate|].
  destruct (Ascii.eqb c sep); [discriminate|].
  destruct (split sep s); discriminate.
Qed.

Lemma join_cons_cons sep x y l :
  join sep (x :: y :: l) = x +:+ sep +:+ join sep (y :: l).
Proof. reflexivity. Qed.

Lemma join_split sep s : join (String sep EmptyString) (split sep s) = s.
Proof.
  induction s as [|c s IH]; [reflexivity|].
  cbn [split]. destruct (Ascii.eqb_spec c sep) as [->|Hne].
  - destruct (split sep s) as [|p ps] eqn:E; [now apply split_nonempty in E|].
    rewrite join_cons_cons, IH. reflexivity.
  - destruct (split sep s) as [|p ps] eqn:E; [now apply split_nonempty in E|].
    destruct ps as [|p' ps].
    + unfold join in *. simpl in *. now rewrite IH.
    + rewrite join_cons_cons in *. rewrite <- IH. reflexivity.
Qed.

Lemma split_no_sep sep s p : In p (split sep s) -> occurs sep p = false.
Proof.
  revert p. induction s as [|c s IH]; intros p; cbn [split].
  - intros [<-|[]]. reflexivity.
  - destruct (Ascii.eqb c sep) eqn:Ec.
    + intros [<-|H]; [reflexivity|now apply IH].
    + destruct (split sep s) as [|q qs] eqn:E.
      * intros [<-|[]]. simpl. now rewrite Ec.
      * intros [<-|H].
        -- simpl. rewrite Ec. apply IH. now left.
        -- apply IH. now right.
Qed.

End StringFacts.

(** * Properties of the float operations *)

Section FloatFacts.

Lemma rne_nonneg a b : 0 <= a -> 0 < b -> 0 <= rne a b.
Proof.
  intros Ha Hb. unfold rne.
  assert (0 <= a / b) by (apply Z.div_pos; lia).
  destruct (2 * (a mod b) ?= b); [destruct (Z.even (a / b))| |]; lia.
Qed.

Lemma scale2_nonneg m q : 0 <= m -> (0 <= scale2 m q)%Q.
Proof.
  intros Hm. unfold scale2. rewrite Qred_correct.
  destruct (0 <=? q) eqn:E.
  - apply Z.leb_le in E. unfold Qle. simpl.
    assert (0 <= 2 ^ q) by (apply Z.pow_nonneg; lia). nia.
  - unfold Qle. simpl. lia.
Qed.

Lemma round_pos_nonneg n d : (0 <= round_pos n d)%Q.
Proof.
  unfold round_pos. apply scale2_nonneg.
  destruct (0 <=? ulp_exp n d) eqn:E.
  - apply Z.leb_le in E. apply rne_nonneg; [lia|].
    assert (0 < 2 ^ ulp_exp n d) by (apply Z.pow_pos_nonneg; lia). nia.
  - apply rne_nonneg; [|lia].
    assert (0 <= 2 ^ (- ulp_exp n d)) by (apply Z.pow_nonneg; lia). nia.
Qed.

Lemma round_b64_nonneg x : (0 <= x)%Q -> (0 <= round_b64 x)%Q.
Proof.
  intros Hx. unfold round_b64. destruct x as [[|n|n] d]; simpl.
  - apply Qle_refl.
  - apply round_pos_nonneg.
  - unfold Qle in Hx. simpl in Hx. lia.
Qed.

Lemma round3_nonneg x : (0 <= x)%Q -> (0 <= round3 x)%Q.
Proof.
  intros Hx. unfold round3. apply round_b64_nonneg.
  unfold Qle in *. simpl in *.
  assert (0 <= rne (Qnum x * 1000) (Z.pos (Qden x)))
    by (apply rne_nonneg; lia).
  lia.
Qed.

Lemma round3_zero : round3 zero = zero.
Proof. reflexivity. Qed.

Lemma mul_int_nonneg x n : (0 <= x)%Q -> 0 <= n -> (0 <= mul_int x n)%Q.
Proof.
  intros Hx Hn. unfold mul_int. apply round_b64_nonneg.
  apply Qmult_le_0_compat; [assumption|].
  unfold Qle. simpl. lia.
Qed.

Lemma score_of_nonneg m t : 0 <= m -> 0 <= t -> (0 <= score_of m t)%Q.
Proof.
  intros Hm Ht. unfold score_of.
  destruct (Z.eqb_spec t 0) as [E|E]; [apply Qle_refl|].
  apply round_b64_nonneg. apply Qle_shift_div_l.
  - unfold Qlt. simpl. lia.
  - rewrite Qmult_0_l. unfold Qle. simpl. lia.
Qed.

(** [rne a b] is within one half of [a / b]. *)
Lemma rne_error a b : 0 < b -> - b <= 2 * (rne a b * b - a) <= b.
Proof.
  intros Hb. unfold rne.
  pose proof (Z.div_mod a b) as Hd. pose proof (Z.mod_pos_bound a b Hb) as Hm.
  destruct (Z.compare_spec (2 * (a mod b)) b);
    [destruct (Z.even (a / b))| |]; nia.
Qed.

(** [pow2_le e n d] decides [2^e <= n / d]: with [e = a - b], that is
    [d * 2^a <= n * 2^b]. *)
Lemma pow2_le_iff a b n d :
  0 <= a -> 0 <= b ->
  pow2_le (a - b) n d = true <-> Z.pos d * 2 ^ a <= Z.pos n * 2 ^ b.
Proof.
  intros Ha Hb. unfold pow2_le.
  assert (Hpa : 0 < 2 ^ a) by (apply Z.pow_pos_nonneg; lia).
  assert (Hpb : 0 < 2 ^ b) by (apply Z.pow_pos_nonneg; lia).
  destruct (Z.leb_spec 0 (a - b)) as [H|H].
  - rewrite Z.leb_le.
    replace (2 ^ a) with (2 ^ (a - b) * 2 ^ b)
      by (rewrite <- Z.pow_add_r by lia; f_equal; lia).
    assert (0 < 2 ^ (a - b)) by (apply Z.pow_pos_nonneg; lia). nia.
  - rewrite Z.leb_le.
    replace (2 ^ b) with (2 ^ (- (a - b)) * 2 ^ a)
      by (rewrite <- Z.pow_add_r by lia; f_equal; lia).
    assert (0 < 2 ^ (- (a - b))) by (apply Z.pow_pos_nonneg; lia). nia.
Qed.

(** [ilog2 n d] is the binary exponent of [n / d]:
    [2^e <= n / d < 2^(e+1)]. *)
Lemma ilog2_spec n d :
  pow2_le (ilog2 n d) n d = true /\ pow2_le (ilog2 n d + 1) n d = false.
Proof.
  unfold ilog2.
  pose proof (Z.log2_spec (Z.pos n) eq_refl) as [Hn1 Hn2].
  pose proof (Z.log2_spec (Z.pos d) eq_refl) as [Hd1 Hd2].
  pose proof (Z.log2_nonneg (Z.pos n)) as Hln.
  pose proof (Z.log2_nonneg (Z.pos d)) as Hld.
  set (ln := Z.log2 (Z.pos n)) in *. set (ld := Z.log2 (Z.pos d)) in *.
  rewrite Z.pow_succ_r in Hn2, Hd2 by assumption.
  assert (Hpn : 0 < 2 ^ ln) by (apply Z.pow_pos_nonneg; lia).
  assert (Hpd : 0 < 2 ^ ld) by (apply Z.pow_pos_nonneg; lia).
  destruct (pow2_le (ln - ld) n d) eqn:E.
  - split; [assumption|].
    replace (ln - ld + 1) with ((ln + 1) - ld) by lia.
    apply not_true_is_false. rewrite pow2_le_iff by lia.
    rewrite Z.pow_add_r, Z.pow_1_r by lia. nia.
  - split.
    + replace (ln - ld - 1) with (ln - (ld + 1)) by lia.
      rewrite pow2_le_iff by lia.
      rewrite Z.pow_add_r, Z.pow_1_r by lia. nia.
    + replace (ln - ld - 1 + 1) with (ln - ld) by lia. assumption.
Qed.

(** Above the subnormal range the significand has 53 bits: [round_pos]
    is [m * 2^(e - 52)] with [2^52 <= m <= 2^53]. *)
Lemma round_pos_significand n d :
  -1022 <= ilog2 n d ->
  exists m,
    round_pos n d = scale2 m (ilog2 n d - 52)
    /\ 2 ^ 52 <= m <= 2 ^ 53.
Proof.
  intros He. unfold round_pos.
  assert (Hq : ulp_exp n d = ilog2 n d - 52) by (unfold ulp_exp; lia).
  rewrite Hq. eexists. split; [reflexivity|].
  destruct (ilog2_spec n d) as [Hlo Hhi].
  apply not_true_iff_false in Hhi.
  set (e := ilog2 n d) in *.
  destruct (Z.leb_spec 0 (e - 52)) as [Hc|Hc].
  - replace e with ((e - 52 + 52) - 0) in Hlo by lia.
    replace (e + 1) with ((e - 52 + 53) - 0) in Hhi by lia.
    rewrite pow2_le_iff in Hlo, Hhi by lia.
    rewrite Z.pow_add_r in Hlo, Hhi by lia. rewrite Z.pow_0_r in Hlo, Hhi.
    assert (Hp : 0 < 2 ^ (e - 52)) by (apply Z.pow_pos_nonneg; lia).
    assert (Hb : 0 < Z.pos d * 2 ^ (e - 52)) by nia.
    pose proof (rne_error (Z.pos n) _ Hb) as Hr.
    set (m := rne (Z.pos n) (Z.pos d * 2 ^ (e - 52))) in *.
    set (B := Z.pos d * 2 ^ (e - 52)) in *.
    change (2 ^ 52) with 4503599627370496 in *.
    change (2 ^ 53) with 9007199254740992 in *.
    split; nia.
  - replace e with (52 - (- (e - 52))) in Hlo by lia.
    replace (e + 1) with (53 - (- (e - 52))) in Hhi by lia.
    rewrite pow2_le_iff in Hlo, Hhi by lia.
    pose proof (rne_error (Z.pos n * 2 ^ (- (e - 52))) (Z.pos d) eq_refl) as Hr.
    set (m := rne (Z.pos n * 2 ^ (- (e - 52))) (Z.pos d)) in *.
    set (A := Z.pos n * 2 ^ (- (e - 52))) in *.
    change (2 ^ 52) with 4503599627370496 in *.
    change (2 ^ 53) with 9007199254740992 in *.
    split; nia.
Qed.

Lemma ilog2_le_0 n d : Z.pos n <= Z.pos d -> ilog2 n d <= 0.
Proof.
  intros H. unfold ilog2.
  pose proof (Z.log2_le_mono _ _ H).
  destruct (pow2_le _ n d); lia.
Qed.

(** Rounding a rational of [0, 1] moves it by at most [2^-53]. *)
Lemma round_pos_error n d :
  Z.pos n <= Z.pos d ->
  (round_pos n d - (Z.pos n # d) <= 1 # 9007199254740992)%Q
  /\ ((Z.pos n # d) - round_pos n d <= 1 # 9007199254740992)%Q.
Proof.
  intros Hnd. unfold round_pos, scale2.
  pose proof (ilog2_le_0 n d Hnd) as He.
  assert (Hq : ulp_exp n d <= -52) by (unfold ulp_exp; lia).
  destruct (Z.leb_spec 0 (ulp_exp n d)) as [Hc|_]; [lia|].
  rewrite Qred_correct.
  set (P := 2 ^ (- ulp_exp n d)).
  assert (HP : 2 ^ 52 <= P) by (apply Z.pow_le_mono_r; lia).
  assert (HP0 : 0 < P) by (apply Z.pow_pos_nonneg; lia).
  pose proof (rne_error (Z.pos n * P) (Z.pos d) eq_refl) as Hr.
  set (m := rne (Z.pos n * P) (Z.pos d)) in *.
  change (2 ^ 52) with 4503599627370496 in HP.
  unfold Qle, Qminus, Qplus, Qopp. cbn [Qnum Qden].
  rewrite !Pos2Z.inj_mul, !Z2Pos.id by assumption.
  split; nia.
Qed.

Lemma round_b64_error x :
  (0 <= x)%Q -> (x <= 1)%Q ->
  (Qabs (round_b64 x - x) <= 1 # 9007199254740992)%Q.
Proof.
  intros H0 H1. apply Qabs_Qle_condition.
  destruct x as [[|n|n] d]; unfold round_b64; cbn [Qnum Qden].
  - split; unfold Qle; simpl; lia.
  - assert (Hnd : Z.pos n <= Z.pos d) by (unfold Qle in H1; simpl in H1; lia).
    destruct (round_pos_error n d Hnd) as [Ha Hb]. split; [|exact Ha].
    apply Qopp_le_compat in Hb.
    assert (E : (- ((Z.pos n # d) - round_pos n d)
                 == round_pos n d - (Z.pos n # d))%Q) by ring.
    now rewrite E in Hb.
  - unfold Qle in H0. simpl in H0. lia.
Qed.

(** The unrounded score is the quotient [m / t] up to [2^-53]. *)
Lemma score_of_error m t :
  0 <= m <= t -> 0 < t ->
  (Qabs (score_of m t - inject_Z m / inject_Z t) <= 1 # 9007199254740992)%Q.
Proof.
  intros Hm Ht. unfold score_of.
  destruct (Z.eqb_spec t 0) as [E|_]; [lia|].
  assert (Hpos : (0 < inject_Z t)%Q) by (unfold Qlt; simpl; lia).
  apply round_b64_error.
  - apply Qle_shift_div_l; [assumption|].
    rewrite Qmult_0_l. unfold Qle. simpl. lia.
  - apply Qle_shift_div_r; [assumption|].
    rewrite Qmult_1_l. unfold Qle. simpl. lia.
Qed.

Lemma score_of_le_1 m t : 0 <= m <= t -> (score_of m t <= 1)%Q.
Proof.
  intros Hm. unfold score_of.
  destruct (Z.eqb_spec t 0) as [E|E]; [unfold Qle; simpl; lia|].
  assert (Hpos : (0 < inject_Z t)%Q) by (unfold Qlt; simpl; lia).
  assert (H0 : (0 <= inject_Z m / inject_Z t)%Q).
  { apply Qle_shift_div_l; [assumption|].
    rewrite Qmult_0_l. unfold Qle. simpl. lia. }
  assert (H1 : (inject_Z m / inject_Z t <= 1)%Q).
  { apply Qle_shift_div_r; [assumption|].
    rewrite Qmult_1_l. unfold Qle. simpl. lia. }
  destruct (inject_Z m / inject_Z t)%Q as [[|n|n] d] eqn:Ex;
    unfold round_b64; cbn [Qnum Qden].
  - unfold Qle. simpl. lia.
  - assert (Hnd : Z.pos n <= Z.pos d) by (unfold Qle in H1; simpl in H1; lia).
    unfold round_pos, scale2.
    pose proof (ilog2_le_0 n d Hnd) as He.
    destruct (Z.leb_spec 0 (ulp_exp n d)) as [Hc|_];
      [unfold ulp_exp in Hc; lia|].
    rewrite Qred_correct.
    assert (HP0 : 0 < 2 ^ (- ulp_exp n d))
      by (apply Z.pow_pos_nonneg; unfold ulp_exp; lia).
    pose proof (rne_error (Z.pos n * 2 ^ (- ulp_exp n d)) (Z.pos d) eq_refl)
      as Hr.
    unfold Qle. cbn [Qnum Qden]. rewrite Z2Pos.id by assumption. nia.
  - unfold Qle in H0. simpl in H0. lia.
Qed.

(** Rounding a float of [0, 1] to three places moves it by at most
    [0.0005 + 2^-53]. *)
Lemma round3_error x :
  (0 <= x)%Q -> (x <= 1)%Q ->
  (Qabs (round3 x - x) <= (1 # 2000) + (1 # 9007199254740992))%Q.
Proof.
  intros H0 H1. unfold round3.
  destruct x as [n d]. cbn [Qnum Qden].
  assert (Hn : 0 <= n <= Z.pos d)
    by (unfold Qle in H0, H1; simpl in H0, H1; lia).
  pose proof (rne_error (n * 1000) (Z.pos d) eq_refl) as Hr.
  pose proof (rne_nonneg (n * 1000) (Z.pos d)) as Hk.
  set (k := rne (n * 1000) (Z.pos d)) in *.
  assert (Hk0 : 0 <= k) by (apply Hk; lia).
  assert (Hk1 : k <= 1000) by nia.
  assert (E : (round_b64 (k # 1000) - (n # d)
               == (round_b64 (k # 1000) - (k # 1000))
                  + ((k # 1000) - (n # d)))%Q) by ring.
  rewrite E. eapply Qle_trans; [apply Qabs_triangle|].
  rewrite Qplus_comm. apply Qplus_le_compat.
  - apply Qabs_Qle_condition. unfold Qle, Qminus, Qplus, Qopp.
    cbn [Qnum Qden]. rewrite !Pos2Z.inj_mul. split; lia.
  - apply round_b64_error; unfold Qle; simpl; lia.
Qed.

(** On a float that is not negative, [int] is the floor. *)
Lemma to_int_floor x :
  (0 <= x)%Q ->
  (inject_Z (to_int x) <= x)%Q /\ (x < inject_Z (to_int x) + 1)%Q.
Proof.
  intros Hx. unfold to_int.
  assert (Hq : Qnum x ÷ Z.pos (Qden x) = Qfloor x).
  { destruct x as [n d]. simpl. apply Z.quot_div_nonneg; [|lia].
    unfold Qle in Hx. simpl in Hx. lia. }
  rewrite Hq. split; [apply Qfloor_le|].
  pose proof (Qlt_floor x) as H. now rewrite inject_Z_plus in H.
Qed.

End FloatFacts.

(** * Properties of the sort *)

Section SortFacts.

Local Arguments key_lt : simpl never.
Local Arguments sort_key : simpl never.

Lemma float_ltb_lt x y : PyFloat.ltb x y = true <-> (x < y)%Q.
Proof.
  unfold PyFloat.ltb. rewrite Qlt_alt.
  destruct (x ?= y)%Q; split; congruence.
Qed.

Lemma float_eqb_eq x y : PyFloat.eqb x y = true <-> (x == y)%Q.
Proof. apply Qeq_bool_iff. Qed.

Lemma neg_eq x y : (neg x == neg y)%Q <-> (x == y)%Q.
Proof.
  unfold neg. rewrite !Qred_correct. split; intros H.
  - rewrite <- (Qopp_involutive x), <- (Qopp_involutive y). now rewrite H.
  - now rewrite H.
Qed.

Lemma neg_lt x y : (neg x < neg y)%Q <-> (y < x)%Q.
Proof.
  unfold neg. rewrite !Qred_correct. split; intros H.
  - rewrite <- (Qopp_involutive x), <- (Qopp_involutive y).
    now apply Qopp_lt_compat.
  - now apply Qopp_lt_compat.
Qed.

Lemma string_ltb_leb a b : String.ltb a b = false <-> String.leb b a = true.
Proof.
  unfold String.ltb, String.leb. rewrite (String.compare_antisym b a).
  destruct (String.compare a b); simpl; split; congruence.
Qed.

(** The key order and the order of the specification agree. *)
Lemma not_after_ranks x y : not_after x y <-> ranks_before x y.
Proof.
  unfold not_after, ranks_before, sort_key, key_lt.
  destruct (PyFloat.eqb (neg (score y)) (neg (score x))) eqn:Es; simpl.
  - apply float_eqb_eq in Es. apply -> neg_eq in Es.
    destruct (Z.eqb_spec (- matched y) (- matched x)) as [Em|Em]; simpl.
    + rewrite string_ltb_leb. split.
      * intros H. right. split; [now symmetry|]. right. split; [lia|exact H].
      * intros [H|[_ [H|[_ H]]]]; [|lia|exact H].
        rewrite Es in H. now apply Qlt_irrefl in H.
    + rewrite Z.ltb_ge. split.
      * intros H. right. split; [now symmetry|]. left. lia.
      * intros [H|[_ [H|[H _]]]]; [|lia|lia].
        rewrite Es in H. now apply Qlt_irrefl in H.
  - assert (Hne : ~ (score y == score x)%Q).
    { intros H. apply <- neg_eq in H. apply float_eqb_eq in H. congruence. }
    split.
    + intros H. left.
      destruct (Qcompare_spec (score y) (score x)) as [E|L|G];
        [contradiction|assumption|].
      apply <- neg_lt in G. apply float_ltb_lt in G. congruence.
    + intros [H|[E _]]; [|now symmetry in E].
      destruct (PyFloat.ltb (neg (score y)) (neg (score x))) eqn:El;
        [|reflexivity].
      apply float_ltb_lt in El. apply -> neg_lt in El.
      exfalso. apply (Qlt_irrefl (score x)). now apply Qlt_trans with (score y).
Qed.

Lemma ranks_before_trans x y z :
  ranks_before x y -> ranks_before y z -> ranks_before x z.
Proof.
  unfold ranks_before.
  intros [Hxy|[Exy Hxy]] [Hyz|[Eyz Hyz]].
  - left. now apply Qlt_trans with (score y).
  - left. now rewrite <- Eyz.
  - left. now rewrite Exy.
  - right. split; [now rewrite Exy|].
    destruct Hxy as [Hxy|[Mxy Nxy]], Hyz as [Hyz|[Myz Nyz]];
      [left; lia|left; lia|left; lia|].
    right. split; [lia|].
    apply Is_true_true. apply Is_true_true in Nxy, Nyz.
    exact (transitivity (R := String.le) Nxy Nyz).
Qed.

Lemma ranks_before_total x y : ranks_before x y \/ ranks_before y x.
Proof.
  unfold ranks_before.
  destruct (Qcompare_spec (score x) (score y)) as [E|L|G]; [|auto|auto].
  destruct (Z.lt_total (matched x) (matched y)) as [L|[Em|G]].
  - right. right. split; [now symmetry|]. now left.
  - destruct (String.leb_total (name x) (name y)) as [H|H].
    + left. right. split; [assumption|]. right. now split.
    + right. right. split; [now symmetry|]. right. now split.
  - left. right. split; [assumption|]. now left.
Qed.

Lemma not_after_asym x y :
  key_lt (sort_key x) (sort_key y) = true -> not_after x y.
Proof.
  intros H. destruct (ranks_before_total x y) as [Hr|Hr].
  - now apply not_after_ranks.
  - apply not_after_ranks in Hr. unfold not_after in Hr. congruence.
Qed.

Lemma insert_by_HdRel a x l :
  HdRel not_after a l -> not_after a x -> HdRel not_after a (insert_by x l).
Proof.
  intros Hl Hx. destruct l as [|y l]; simpl.
  - now constructor.
  - destruct (key_lt (sort_key x) (sort_key y)); constructor;
      [assumption|now inversion Hl].
Qed.

Lemma insert_by_Sorted x l :
  Sorted not_after l -> Sorted not_after (insert_by x l).
Proof.
  induction 1 as [|y l Hs IH Hhd]; simpl.
  - repeat constructor.
  - destruct (key_lt (sort_key x) (sort_key y)) eqn:E.
    + constructor; [now constructor|]. constructor. now apply not_after_asym.
    + constructor; [assumption|]. now apply insert_by_HdRel.
Qed.

Lemma fold_insert_Sorted l acc :
  Sorted not_after acc ->
  Sorted not_after (fold_left (fun acc x => insert_by x acc) l acc).
Proof.
  revert acc. induction l as [|x l IH]; intros acc Hacc; simpl;
    [assumption|].
  apply IH. now apply insert_by_Sorted.
Qed.

Lemma sort_entries_ranked l : StronglySorted ranks_before (sort_entries l).
Proof.
  assert (Hs : Sorted ranks_before (sort_entries l)).
  { assert (H : Sorted not_after (sort_entries l))
      by (apply fold_insert_Sorted; constructor).
    induction H as [|y l' Hs IH Hhd]; constructor; [assumption|].
    destruct Hhd; constructor. now apply not_after_ranks. }
  apply Sorted_StronglySorted; [|assumption].
  intros x y z. apply ranks_before_trans.
Qed.

Lemma insert_by_Permutation x l : Permutation (insert_by x l) (x :: l).
Proof.
  induction l as [|y l IH]; simpl; [reflexivity|].
  destruct (key_lt (sort_key x) (sort_key y)); [reflexivity|].
  rewrite IH. apply perm_swap.
Qed.

Lemma fold_insert_Permutation l acc :
  Permutation (fold_left (fun acc x => insert_by x acc) l acc) (acc ++ l).
Proof.
  revert acc. induction l as [|x l IH]; intros acc; simpl.
  - now rewrite app_nil_r.
  - rewrite IH, insert_by_Permutation. apply Permutation_middle.
Qed.

Lemma sort_entries_Permutation l : Permutation (sort_entries l) l.
Proof. apply (fold_insert_Permutation l []). Qed.

Lemma sort_entries_In e l : In e (sort_entries l) <-> In e l.
Proof.
  split; apply Permutation_in;
    [apply sort_entries_Permutation|symmetry; apply sort_entries_Permutation].
Qed.

End SortFacts.

(** * Properties of the scorer and of the matcher *)

Section MatchFacts.

Lemma py_sum_ones {A : Type} (l : list A) :
  py_sum (List.map (fun _ => 1) l) = Z.of_nat (List.length l).
Proof.
  unfold py_sum.
  assert (H : forall acc,
             fold_left Z.add (List.map (fun _ : A => 1) l) acc
             = acc + Z.of_nat (List.length l)).
  { induction l as [|x l IH]; intros acc; simpl List.length; simpl fold_left.
    - lia.
    - rewrite IH. lia. }
  now rewrite H.
Qed.

Lemma filter_map_length {A B : Type} (f : A -> B) (P : B -> bool) l :
  List.length (List.filter P (List.map f l))
  = List.length (List.filter (fun x => P (f x)) l).
Proof.
  induction l as [|x l IH]; simpl; [reflexivity|].
  destruct (P (f x)); simpl; now rewrite IH.
Qed.

Lemma filter_nth_seq {A : Type} (P : A -> bool) (d : A) l :
  List.length
    (List.filter (fun i => P (nth i l d)) (seq 0 (List.length l)))
  = List.length (List.filter P l).
Proof.
  induction l as [|x l IH]; [reflexivity|].
  assert (H : List.length
                (List.filter (fun i => P (nth i (x :: l) d))
                   (seq 1 (List.length l)))
              = List.length (List.filter P l)).
  { rewrite <- seq_shift, filter_map_length. exact IH. }
  cbn [List.length seq List.filter].
  change (nth 0 (x :: l) d) with x.
  destruct (P x); cbn [List.length]; now rewrite H.
Qed.

Lemma matched_count available ings :
  py_sum
    (List.map (fun _ => 1)
       (List.filter
          (fun i => bool_decide (i ∈ (list_to_set available : gset string)))
          (List.map normalize ings)))
  = count_positions available ings.
Proof.
  unfold count_positions.
  rewrite py_sum_ones, filter_map_length. f_equal.
  pose proof (filter_nth_seq
                (fun i => bool_decide (normalize i ∈ available))
                EmptyString ings) as H.
  cbv beta in H. rewrite H. f_equal. apply List.filter_ext. intros i.
  apply bool_decide_ext. apply elem_of_list_to_set.
Qed.

Lemma len_map {A B : Type} (f : A -> B) l : len (List.map f l) = len l.
Proof. unfold len. now rewrite List.length_map. Qed.

Lemma score_recipe_eq available recipe :
  score_recipe available recipe
  = Ok (score_of (count_positions available (r_ingredients recipe))
                 (len (r_ingredients recipe)),
        count_positions available (r_ingredients recipe),
        len (r_ingredients recipe)).
Proof.
  unfold score_recipe, score_of.
  rewrite matched_count, len_map.
  destruct (Z.eqb_spec (len (r_ingredients recipe)) 0) as [E|E]; simpl.
  - reflexivity.
  - unfold truediv. destruct (Z.eqb_spec (len (r_ingredients recipe)) 0);
      [contradiction|reflexivity].
Qed.

Lemma count_positions_bounds available ings :
  0 <= count_positions available ings <= len ings.
Proof.
  unfold count_positions, len. split; [lia|].
  apply inj_le. etransitivity; [apply List.filter_length_le|].
  now rewrite List.length_seq.
Qed.

Lemma find_matches_loop_eq available recipes full partial :
  find_matches_loop available recipes full partial
  = Ok (full ++ List.filter is_full (List.map (entry_of available) recipes),
        partial
        ++ List.filter is_partial (List.map (entry_of available) recipes)).
Proof.
  revert full partial.
  induction recipes as [|r recipes IH]; intros full partial.
  - simpl. now rewrite !app_nil_r.
  - cbn [find_matches_loop]. rewrite score_recipe_eq. cbn [mbind result_bind].
    cbn [List.map List.filter].
    unfold is_full at 1, is_partial at 1. fold (entry_of available r).
    cbn [matched total entry_of].
    destruct (count_positions available (r_ingredients r)
              =? len (r_ingredients r)) eqn:E1.
    + rewrite IH. cbn [negb andb]. now rewrite <- app_assoc.
    + cbn [negb andb].
      destruct (0 <? count_positions available (r_ingredients r));
        rewrite IH; [now rewrite <- app_assoc|reflexivity].
Qed.

Lemma find_matches_eq available recipes :
  find_matches available recipes
  = Ok {| full_matches :=
            sort_entries
              (List.filter is_full (List.map (entry_of available) recipes));
          partial_matches :=
            sort_entries
              (List.filter is_partial
                 (List.map (entry_of available) recipes)) |}.
Proof. unfold find_matches. now rewrite find_matches_loop_eq. Qed.

Lemma In_full available recipes e :
  In e (sort_entries
          (List.filter is_full (List.map (entry_of available) recipes)))
  <-> (exists r, In r recipes /\ entry_of available r = e)
      /\ matched e = total e.
Proof.
  rewrite sort_entries_In, List.filter_In, List.in_map_iff.
  unfold is_full. rewrite Z.eqb_eq. split.
- intros [[r [He Hr]] Hm]. split; [|assumption]. exists r. now split.
- intros [[r [Hr He]] Hm]. split; [|assumption]. exists r. now split.
Qed.

Lemma In_partial available recipes e :
  In e (sort_entries
          (List.filter is_partial (List.map (entry_of available) recipes)))
  <-> (exists r, In r recipes /\ entry_of available r = e)
      /\ 0 < matched e < total e.
Proof.
  rewrite sort_entries_In, List.filter_In, List.in_map_iff.
  unfold is_partial. rewrite andb_true_iff, negb_true_iff, Z.eqb_neq, Z.ltb_lt.
  split.
  - intros [[r [Hr He]] [Hne Hpos]]. split; [eauto|].
    subst e. pose proof (count_positions_bounds available (r_ingredients r)).
    simpl in *. lia.
  - intros [[r [Hr He]] H]. split; [exists r; now split|]. lia.
Qed.

Lemma entry_of_score_error available r :
  len (r_ingredients r) <> 0 ->
  (Qabs (score (entry_of available r)
         - inject_Z (matched (entry_of available r))
           / inject_Z (total (entry_of available r))) <= 1 # 1000)%Q.
Proof.
  intros Ht. cbn [entry_of score matched total].
  pose proof (count_positions_bounds available (r_ingredients r)) as Hb.
  set (m := count_positions available (r_ingredients r)) in *.
  set (t := len (r_ingredients r)) in *.
  assert (Ht0 : 0 < t) by lia.
  pose proof (score_of_error m t Hb Ht0) as H1.
  pose proof (round3_error (score_of m t)
                (score_of_nonneg m t (proj1 Hb) (Z.lt_le_incl _ _ Ht0))
                (score_of_le_1 m t Hb)) as H2.
  assert (E : (round3 (score_of m t) - inject_Z m / inject_Z t
               == (round3 (score_of m t) - score_of m t)
                  + (score_of m t - inject_Z m / inject_Z t))%Q) by ring.
  rewrite E. eapply Qle_trans; [apply Qabs_triangle|].
  eapply Qle_trans; [apply Qplus_le_compat; eassumption|].
  unfold Qle. simpl. lia.
Qed.

End MatchFacts.

(** * The parser *)

Section Parser.

Lemma filter_truthy_strip l :
  List.filter truthy (List.map strip l)
  = List.map strip (List.filter (fun p => truthy (strip p)) l).
Proof.
  induction l as [|p l IH]; simpl; [reflexivity|].
  destruct (truthy (strip p)); simpl; now rewrite IH.
Qed.

Lemma normalize_strip p : normalize (strip p) = lower (strip p).
Proof. unfold normalize. now rewrite strip_idem. Qed.

Lemma parse_input_eq arg : parse_input arg = parse_input_spec arg.
Proof.
  unfold parse_input, parse_input_spec.
  rewrite filter_truthy_strip, !List.map_map.
  apply List.map_ext. intros p. apply normalize_strip.
Qed.

Lemma normalize_idem s : normalize (normalize s) = normalize s.
Proof.
  unfold normalize. now rewrite strip_lower, strip_idem, lower_idem.
Qed.

End Parser.

(** C5.  For every input string, [parse_input] splits on the comma, trims
    each piece, discards the pieces that are empty after trimming and
    lower-cases the rest, in the order of the input and with duplicates
    kept; [split] cuts at every comma and only there.  In particular
    ["Eggs, MILK ,Tomato"] parses to ["eggs"; "milk"; "tomato"]. *)
Theorem parse_input_splits_trims_lowers :
  (forall arg : string,
      parse_input arg
      = List.map lower
          (List.filter truthy (List.map strip (split "," arg)))
      /\ join "," (split "," arg) = arg
      /\ (forall p, In p (split "," arg) -> occurs "," p = false))
  /\ parse_input "Eggs, MILK ,Tomato" = ["eggs"; "milk"; "tomato"]
  /\ parse_input "salt,Egg , salt,,EGG" = ["salt"; "egg"; "salt"; "egg"].
Proof.
  split; [|split; reflexivity].
  intros arg. split; [apply parse_input_eq|]. split.
  - apply join_split.
  - intros p. apply split_no_sep.
Qed.

(** C10.  [normalize] is idempotent, and every token that [parse_input]
    returns is non-empty and equal to its own normalization. *)
Theorem normalize_idempotent :
  (forall s : string, normalize (normalize s) = normalize s)
  /\ (forall (arg t : string),
         In t (parse_input arg) -> t <> EmptyString /\ normalize t = t).
Proof.
  split; [apply normalize_idem|].
  intros arg t Ht. rewrite parse_input_eq in Ht. unfold parse_input_spec in Ht.
  apply List.in_map_iff in Ht as [p [<- Hp]].
  apply List.filter_In in Hp as [Hp Hne].
  apply List.in_map_iff in Hp as [q [<- _]].
  split.
  - apply truthy_true. now rewrite truthy_lower.
  - unfold normalize. now rewrite strip_lower, strip_idem, lower_idem.
Qed.

(** * The scorer *)

(** C3.  For every available list and every recipe, [score_recipe] returns
    as [matched] the number of positions of the recipe's ingredient list
    whose normalized ingredient is an available token (an ingredient listed
    twice counts twice), as [total] the length of that list, and as [score]
    the float quotient of the two, which is the rational [matched / total]
    up to [2^-53].  With "egg" and "milk" available,
    Pancakes scores 2 out of 6; the quotient is 0.333 to three places, and
    the entry of [find_matches] is a partial match with that score and 4
    missing. *)
Theorem score_recipe_counts :
  (forall (available : list string) (recipe : Recipe),
      let m := count_positions available (r_ingredients recipe) in
      let t := len (r_ingredients recipe) in
      score_recipe available recipe
      = Ok (if t =? 0 then zero else round_b64 (inject_Z m / inject_Z t),
            m, t)
      /\ (t <> 0 ->
          (Qabs (round_b64 (inject_Z m / inject_Z t)
                 - inject_Z m / inject_Z t) <= 1 # 9007199254740992)%Q))
  /\ score_recipe ["egg"] (mkRecipe "Custard" ["Egg"; "milk"; " egg "])
     = Ok (round_b64 (2 # 3), 2, 3)
  /\ score_recipe ["egg"; "milk"]
       (mkRecipe "Pancakes"
          ["flour"; "milk"; "egg"; "baking powder"; "salt"; "butter"])
     = Ok (round_b64 (2 # 6), 2, 6)
  /\ round3 (round_b64 (2 # 6)) = round_b64 (333 # 1000)
  /\ exists res,
      find_matches ["egg"; "milk"] SAMPLE_RECIPES = Ok res
      /\ In {| name := "Pancakes"; matched := 2; total := 6;
               score := round_b64 (333 # 1000); missing := 4;
               ingredients :=
                 ["flour"; "milk"; "egg"; "baking powder"; "salt"; "butter"] |}
            (partial_matches res).
Proof.
  split.
  { intros available recipe m t. split; [apply score_recipe_eq|].
    intros Ht.
    pose proof (count_positions_bounds available (r_ingredients recipe)) as Hb.
    assert (Ht0 : 0 < t) by (unfold t, len in *; lia).
    pose proof (score_of_error m t Hb Ht0) as H. unfold score_of in H.
    destruct (Z.eqb_spec t 0); [contradiction|exact H]. }
  split; [vm_compute; reflexivity|].
  split; [vm_compute; reflexivity|].
  split; [vm_compute; reflexivity|].
  eexists. split; [vm_compute; reflexivity|].
  simpl. auto.
Qed.

(** C4.  Scoring never raises, and a recipe without ingredients does not
    divide by zero: it scores [0.0] with 0 matched out of 0, and
    [find_matches] lists it among the full matches and not among the
    partial ones. *)
Theorem empty_recipe_is_full_match (available : list string) :
  (forall recipe, exists v, score_recipe available recipe = Ok v)
  /\ forall nm : string,
      score_recipe available (mkRecipe nm []) = Ok (zero, 0, 0)
      /\ forall recipes,
          In (mkRecipe nm []) recipes ->
          exists res,
            find_matches available recipes = Ok res
            /\ In {| name := nm; matched := 0; total := 0; score := zero;
                     missing := 0; ingredients := [] |} (full_matches res)
            /\ ~ In {| name := nm; matched := 0; total := 0; score := zero;
                       missing := 0; ingredients := [] |}
                 (partial_matches res).
Proof.
  split.
  - intros recipe. rewrite score_recipe_eq. eauto.
  - intros nm. split; [reflexivity|].
    intros recipes Hin. rewrite find_matches_eq. eexists. split; [reflexivity|].
    cbn [full_matches partial_matches]. rewrite In_full, In_partial. split.
    + split; [|reflexivity]. exists (mkRecipe nm []). now split.
    + intros [_ H]. simpl in H. lia.
Qed.

(** C9.  Matching uses the available ingredients as a set: two available
    lists with the same tokens, in whatever order and however often
    repeated, give the same triple for every recipe and the same result of
    [find_matches]. *)
Theorem matching_set_semantics (a1 a2 : list string) :
  (forall x : string, In x a1 <-> In x a2) ->
  (forall recipe, score_recipe a1 recipe = score_recipe a2 recipe)
  /\ (forall recipes, find_matches a1 recipes = find_matches a2 recipes).
Proof.
  intros H.
  assert (Hset : (list_to_set a1 : gset string) = list_to_set a2).
  { apply set_eq. intros x. rewrite !elem_of_list_to_set, !list_elem_of_In.
    apply H. }
  assert (Hs : forall recipe, score_recipe a1 recipe = score_recipe a2 recipe).
  { intros recipe. unfold score_recipe. now rewrite Hset. }
  split; [exact Hs|].
  intros recipes. unfold find_matches. f_equal.
  generalize (@nil Entry) at 1 3. generalize (@nil Entry).
  induction recipes as [|r recipes IH]; intros full partial; [reflexivity|].
  cbn [find_matches_loop]. rewrite Hs.
  destruct (score_recipe a2 r) as [[[sc m] t]|e]; [|reflexivity].
  cbn [mbind result_bind].
  destruct (m =? t); [apply IH|]. destruct (0 <? m); apply IH.
Qed.

Lemma matching_set_semantics_witness :
  (forall recipe,
      score_recipe ["milk"; "egg"; "milk"] recipe
      = score_recipe ["egg"; "milk"] recipe)
  /\ (forall recipes,
         find_matches ["milk"; "egg"; "milk"] recipes
         = find_matches ["egg"; "milk"] recipes).
Proof.
  apply (matching_set_semantics ["milk"; "egg"; "milk"] ["egg"; "milk"]).
  intros x. simpl. tauto.
Defined.

(** * The matcher *)

(** C1.  For every available list and every recipe of the catalog,
    [find_matches] puts the recipe's entry in exactly one of full matches,
    partial matches, or neither: among the full matches iff
    [matched = total] (also when both are 0), among the partial matches iff
    [0 < matched < total], and in neither list iff [matched = 0] with
    [total > 0]. *)
Theorem find_matches_partition (available : list string)
    (recipes : list Recipe) :
  exists res,
    find_matches available recipes = Ok res
    /\ forall r, In r recipes ->
        exists sc m t,
          score_recipe available r = Ok (sc, m, t)
          /\ let e := {| name := r_name r; matched := m; total := t;
                         score := round3 sc; missing := t - m;
                         ingredients := r_ingredients r |} in
             (In e (full_matches res) <-> m = t)
             /\ (In e (partial_matches res) <-> 0 < m < t)
             /\ (~ In e (full_matches res) /\ ~ In e (partial_matches res)
                 <-> m = 0 /\ 0 < t)
             /\ ~ (In e (full_matches res) /\ In e (partial_matches res)).
Proof.
  rewrite find_matches_eq. eexists. split; [reflexivity|].
  intros r Hr. rewrite score_recipe_eq. do 3 eexists. split; [reflexivity|].
  cbn [full_matches partial_matches]. fold (entry_of available r).
  rewrite In_full, In_partial. cbn [matched total entry_of].
  pose proof (count_positions_bounds available (r_ingredients r)) as Hb.
  assert (Hex : exists r', In r' recipes
                           /\ entry_of available r' = entry_of available r)
    by (exists r; now split).
  split; [|split; [|split]].
  - split; [intros [_ H]; exact H|intros H; now split].
  - split; [intros [_ H]; exact H|intros H; now split].
  - split.
    + intros [H1 H2].
      assert (count_positions available (r_ingredients r)
              <> len (r_ingredients r)) by (intros E; apply H1; now split).
      assert (~ 0 < count_positions available (r_ingredients r)
                < len (r_ingredients r)) by (intros E; apply H2; now split).
      lia.
    + intros [H1 H2]. split; intros [_ H]; lia.
  - intros [[_ H1] [_ H2]]. lia.
Qed.

(** The claim C7 as it is stated fails: the entry of Pancakes for "egg" and
    "milk" carries the score 0.333, which is neither the rational 2/6 nor
    the float quotient [2 / 6]. *)
Lemma entry_score_is_not_the_quotient :
  exists res e,
    find_matches ["egg"; "milk"] SAMPLE_RECIPES = Ok res
    /\ In e (partial_matches res)
    /\ matched e = 2 /\ total e = 6
    /\ ~ (score e == inject_Z (matched e) / inject_Z (total e))%Q
    /\ Ok (score e) <> truediv (matched e) (total e).
Proof.
  eexists. eexists. split; [vm_compute; reflexivity|].
  split; [right; left; reflexivity|].
  split; [reflexivity|]. split; [reflexivity|].
  split; [intros H; vm_compute in H|intros H; vm_compute in H]; discriminate.
Qed.

(** C7, amended.  Every entry of either list that [find_matches] returns
    has [0 <= matched <= total] and, as its score, the float quotient
    [matched / total] rounded to three decimal places ([0.0] when [total]
    is 0), which is within 0.001 of the rational [matched / total]. *)
Theorem entry_invariant (available : list string) (recipes : list Recipe) :
  exists res,
    find_matches available recipes = Ok res
    /\ forall e, In e (full_matches res) \/ In e (partial_matches res) ->
        0 <= matched e <= total e
        /\ score e
           = (if total e =? 0 then zero
              else round3 (round_b64 (inject_Z (matched e)
                                      / inject_Z (total e))))
        /\ (total e <> 0 ->
            (Qabs (score e - inject_Z (matched e) / inject_Z (total e))
             <= 1 # 1000)%Q).
Proof.
  rewrite find_matches_eq. eexists. split; [reflexivity|].
  cbn [full_matches partial_matches]. intros e.
  rewrite In_full, In_partial.
  intros [[[r [_ <-]] _]|[[r [_ <-]] _]];
    (split; [apply count_positions_bounds|]);
    (split; [|apply entry_of_score_error]);
    cbn [entry_of score total matched]; unfold score_of;
    destruct (len (r_ingredients r) =? 0); reflexivity.
Qed.

Section Ranking.

Lemma StronglySorted_nth_error {A : Type} (R : A -> A -> Prop) l :
  StronglySorted R l ->
  forall i j x y,
    (i < j)%nat -> nth_error l i = Some x -> nth_error l j = Some y ->
    R x y.
Proof.
  induction 1 as [|a l Hl IH Ha]; intros i j x y Hij Hx Hy.
  - destruct i; discriminate.
  - destruct j as [|j]; [lia|]. simpl in Hy. destruct i as [|i].
    + simpl in Hx. injection Hx as <-.
      rewrite List.Forall_forall in Ha. apply Ha.
      now apply nth_error_In with j.
    + simpl in Hx. apply (IH i j); [lia|assumption|assumption].
Qed.

Lemma ranks_before_tie e1 e2 :
  ranks_before e1 e2 -> (score e1 == score e2)%Q ->
  matched e1 = matched e2 -> String.leb (name e1) (name e2) = true.
Proof.
  intros [H|[_ [H|[_ H]]]] Es Em; [|lia|assumption].
  rewrite Es in H. now apply Qlt_irrefl in H.
Qed.

End Ranking.

(** C2.  Both lists that [find_matches] returns are sorted by the composite
    key: first by descending rounded score, then by descending matched
    count, then by ascending name in the order of the code points.  In
    particular, of two entries of a list with the same score and the same
    matched count, the one that stands first has the smaller or equal
    name. *)
Theorem find_matches_sorted (available : list string)
    (recipes : list Recipe) :
  exists res,
    find_matches available recipes = Ok res
    /\ StronglySorted ranks_before (full_matches res)
    /\ StronglySorted ranks_before (partial_matches res)
    /\ forall l, l = full_matches res \/ l = partial_matches res ->
        forall i j e1 e2,
          (i < j)%nat -> nth_error l i = Some e1 -> nth_error l j = Some e2 ->
          (score e2 <= score e1)%Q
          /\ ((score e1 == score e2)%Q -> matched e2 <= matched e1)
          /\ ((score e1 == score e2)%Q -> matched e1 = matched e2 ->
              String.leb (name e1) (name e2) = true).
Proof.
  rewrite find_matches_eq. eexists. split; [reflexivity|].
  cbn [full_matches partial_matches].
  split; [apply sort_entries_ranked|]. split; [apply sort_entries_ranked|].
  intros l Hl i j e1 e2 Hij H1 H2.
  assert (Hr : ranks_before e1 e2).
  { apply (StronglySorted_nth_error ranks_before l) with i j; trivial.
    destruct Hl as [-> | ->]; apply sort_entries_ranked. }
  split; [|split].
  - destruct Hr as [H|[H _]]; [now apply Qlt_le_weak|].
    rewrite H. apply Qle_refl.
  - intros Es. destruct Hr as [H|[_ [H|[H _]]]]; [|lia|lia].
    rewrite Es in H. now apply Qlt_irrefl in H.
  - now apply ranks_before_tie.
Qed.

(** With only "butter" available, French Toast and Omelette tie on score
    and matched count: French Toast, later in the catalog, is ranked
    first. *)
Example butter_ranking :
  exists res,
    find_matches ["butter"] SAMPLE_RECIPES = Ok res
    /\ full_matches res = []
    /\ List.map (fun e => (name e, matched e, total e)) (partial_matches res)
       = [("Grilled Cheese", 1, 3); ("French Toast", 1, 5);
          ("Omelette", 1, 5); ("Pancakes", 1, 6)].
Proof. eexists. split; [vm_compute; reflexivity|]. split; reflexivity. Qed.

(** * The presenter and the entry point *)

Section Output.

Lemma append_assoc (a b c : string) : (a +:+ b) +:+ c = a +:+ b +:+ c.
Proof.
  induction a as [|x a IH]; [reflexivity|].
  change (String x ((a +:+ b) +:+ c) = String x (a +:+ b +:+ c)).
  now rewrite IH.
Qed.

Lemma print_each_In body e l :
  In e l ->
  exists before after, print_each body l = before +:+ body e +:+ after.
Proof.
  induction l as [|x l IH]; intros Hin; [destruct Hin|].
  destruct Hin as [->|Hin].
  - exists EmptyString, (print_each body l). reflexivity.
  - destruct (IH Hin) as [before [after E]].
    exists (body x +:+ before), after. simpl.
    now rewrite E, append_assoc.
Qed.


Lemma entry_of_score_nonneg available r :
  (0 <= score (entry_of available r))%Q.
Proof.
  cbn [entry_of score]. apply round3_nonneg, score_of_nonneg.
  - apply count_positions_bounds.
  - unfold len. lia.
Qed.

End Output.

(** The whole output for one run. *)
Example sample_run :
  main ["recipe_finder.py"; "Egg, milk,BUTTER ,bread,cheese"] EmptyString
  = Ok ("Available (normalized): egg, milk, butter, bread, cheese" +:+ nl
        +:+ nl +:+ "=== Full matches (you can fully make these) ===" +:+ nl
        +:+ "- Grilled Cheese (matches: 3/3)" +:+ nl
        +:+ nl +:+ "=== Partial matches (ranked) ===" +:+ nl
        +:+ "- French Toast: 80% (4/5) -- missing 1 ingredient(s)" +:+ nl
        +:+ "    Ingredients: bread, egg, milk, butter, cinnamon" +:+ nl
        +:+ "- Pancakes: 50% (3/6) -- missing 3 ingredient(s)" +:+ nl
        +:+ "    Ingredients: flour, milk, egg, baking powder, salt, butter"
        +:+ nl
        +:+ "- Omelette: 40% (2/5) -- missing 3 ingredient(s)" +:+ nl
        +:+ "    Ingredients: egg, salt, pepper, butter, onion" +:+ nl).
Proof. vm_compute. reflexivity. Qed.

(** The product is the float product: the score 0.29 times 100 is the float
    just below 29, and the percentage printed is 28. *)
Example percentage_of_0_29 :
  truediv 9 31 = Ok (round_b64 (9 # 31))
  /\ round3 (round_b64 (9 # 31)) = round_b64 (29 # 100)
  /\ to_int (mul_int (round_b64 (29 # 100)) 100) = 28.
Proof. repeat split; vm_compute; reflexivity. Qed.

(** C6.  Whenever parsing yields no ingredient, whether the text comes from
    the argument or from the line read after the prompt, the run ends
    normally having printed only "No ingredients provided. Exiting." (after
    the prompt, when there was one): no echo line, no match section, and the
    matcher is not called, whatever it would do. *)
Theorem main_no_ingredients
    (matcher : list string -> list Recipe -> result MatchResult)
    (catalog : list Recipe) (argv : list string) (line : string) :
  match argv with
  | _ :: user_input :: _ => parse_input user_input
  | _ => parse_input line
  end = [] ->
  main_with matcher catalog argv line
  = Ok (match argv with
        | _ :: _ :: _ => EmptyString
        | _ => prompt
        end +:+ print "No ingredients provided. Exiting.").
Proof.
  intros H. unfold main_with.
  destruct argv as [|prog [|user_input argv]]; now rewrite H.
Qed.

Lemma main_no_ingredients_witness :
  main ["recipe_finder.py"; ""] "eggs"
  = Ok ("No ingredients provided. Exiting." +:+ nl)
  /\ main ["recipe_finder.py"; "  ,  ,"] "eggs"
     = Ok ("No ingredients provided. Exiting." +:+ nl)
  /\ main_with (fun _ _ => Raise ZeroDivisionError) SAMPLE_RECIPES
       ["recipe_finder.py"] " , "
     = Ok (prompt +:+ "No ingredients provided. Exiting." +:+ nl).
Proof.
  split; [|split].
  - apply (main_no_ingredients find_matches SAMPLE_RECIPES
             ["recipe_finder.py"; ""] "eggs"). reflexivity.
  - apply (main_no_ingredients find_matches SAMPLE_RECIPES
             ["recipe_finder.py"; "  ,  ,"] "eggs"). reflexivity.
  - apply (main_no_ingredients (fun _ _ => Raise ZeroDivisionError)
             SAMPLE_RECIPES ["recipe_finder.py"] " , "). reflexivity.
Defined.

(** * More on the parser *)

Section ParserFacts.

Lemma split_app sep a b :
  split sep (a +:+ String sep b) = split sep a ++ split sep b.
Proof.
  induction a as [|c a IH].
  - change (EmptyString +:+ String sep b) with (String sep b).
    cbn [split]. now rewrite Ascii.eqb_refl.
  - change (String c a +:+ String sep b) with (String c (a +:+ String sep b)).
    cbn [split]. rewrite IH. destruct (Ascii.eqb c sep); [reflexivity|].
    destruct (split sep a) as [|p ps] eqn:E; [now apply split_nonempty in E|].
    reflexivity.
Qed.

Lemma split_none sep t : occurs sep t = false -> split sep t = [t].
Proof.
  induction t as [|c t IH]; [reflexivity|].
  cbn [occurs split]. intros H. apply orb_false_elim in H as [Hc Ht].
  rewrite Hc, (IH Ht). reflexivity.
Qed.

Lemma parse_input_spec_app l1 l2 :
  List.map lower (List.filter truthy (List.map strip (l1 ++ l2)))
  = List.map lower (List.filter truthy (List.map strip l1))
    ++ List.map lower (List.filter truthy (List.map strip l2)).
Proof. now rewrite List.map_app, List.filter_app, List.map_app. Qed.

Lemma parse_input_comma a b :
  parse_input (a +:+ String "," b) = parse_input a ++ parse_input b.
Proof.
  rewrite !parse_input_eq. unfold parse_input_spec.
  now rewrite split_app, parse_input_spec_app.
Qed.

Lemma strip_space_cons c s : is_space c = true -> strip (String c s) = strip s.
Proof.
  intros Hc. unfold strip. cbn [rstrip].
  destruct (rstrip s) as [|d r]; [now rewrite Hc|].
  cbn [lstrip]. now rewrite Hc.
Qed.

Lemma split_cons_space c s :
  Ascii.eqb c "," = false ->
  exists p ps, split "," s = p :: ps /\ split "," (String c s) = String c p :: ps.
Proof.
  intros Hc. cbn [split]. rewrite Hc.
  destruct (split "," s) as [|p ps] eqn:E; [now apply split_nonempty in E|].
  now exists p, ps.
Qed.

Lemma parse_input_space s : parse_input (String " " s) = parse_input s.
Proof.
  rewrite !parse_input_eq. unfold parse_input_spec.
  destruct (split_cons_space " " s eq_refl) as [p [ps [-> ->]]].
  cbn [List.map]. now rewrite strip_space_cons.
Qed.

Lemma occurs_lstrip c s : occurs c s = false -> occurs c (lstrip s) = false.
Proof.
  induction s as [|d s IH]; [reflexivity|].
  intros H. cbn [lstrip]. destruct (is_space d); [|assumption].
  cbn [occurs] in H. apply orb_false_elim in H as [_ H]. auto.
Qed.

Lemma occurs_rstrip c s : occurs c s = false -> occurs c (rstrip s) = false.
Proof.
  induction s as [|d s IH]; [reflexivity|].
  cbn [occurs]. intros H. apply orb_false_elim in H as [Hd H].
  specialize (IH H). cbn [rstrip].
  destruct (rstrip s) as [|e r].
  - destruct (is_space d); [reflexivity|]. cbn [occurs]. now rewrite Hd.
  - cbn [occurs] in *. now rewrite Hd, IH.
Qed.

Lemma comma_lower_char c :
  Ascii.eqb (lower_char c) "," = Ascii.eqb c ",".
Proof. destruct c as [[] [] [] [] [] [] [] []]; reflexivity. Qed.

Lemma occurs_lower s : occurs "," (lower s) = occurs "," s.
Proof.
  induction s as [|d s IH]; [reflexivity|].
  cbn [lower occurs]. now rewrite comma_lower_char, IH.
Qed.

(** What every token of [parse_input] is like. *)
Lemma parse_input_token arg t :
  In t (parse_input arg) ->
  occurs "," t = false /\ strip t = t /\ lower t = t /\ t <> EmptyString.
Proof.
  intros Ht. rewrite parse_input_eq in Ht. unfold parse_input_spec in Ht.
  apply List.in_map_iff in Ht as [p [<- Hp]].
  apply List.filter_In in Hp as [Hp Hne].
  apply List.in_map_iff in Hp as [q [<- Hq]].
  repeat split.
  - rewrite occurs_lower. unfold strip.
    apply occurs_lstrip, occurs_rstrip. now apply split_no_sep with arg.
  - now rewrite strip_lower, strip_idem.
  - apply lower_idem.
  - apply truthy_true. now rewrite truthy_lower.
Qed.

Lemma parse_input_single t :
  occurs "," t = false -> strip t = t -> lower t = t -> t <> EmptyString ->
  parse_input t = [t].
Proof.
  intros Hc Hs Hl Hne. rewrite parse_input_eq. unfold parse_input_spec.
  rewrite (split_none _ _ Hc). cbn [List.map List.filter]. rewrite Hs.
  apply truthy_true in Hne. rewrite Hne. cbn [List.map]. now rewrite Hl.
Qed.

Lemma parse_input_join l :
  (forall t, In t l ->
     occurs "," t = false /\ strip t = t /\ lower t = t /\ t <> EmptyString) ->
  parse_input (join ", " l) = l.
Proof.
  induction l as [|t l IH]; intros H; [reflexivity|].
  destruct (H t (or_introl eq_refl)) as [Hc [Hs [Hl Hne]]].
  destruct l as [|t' l].
  - now apply parse_input_single.
  - rewrite join_cons_cons.
    change (t +:+ ", " +:+ join ", " (t' :: l))
      with (t +:+ String "," (String " " (join ", " (t' :: l)))).
    rewrite parse_input_comma, parse_input_space, IH.
    + now rewrite parse_input_single.
    + intros u Hu. apply H. now right.
Qed.

Lemma lstrip_all_space pre s : all_space pre = true -> lstrip (pre +:+ s) = lstrip s.
Proof.
  induction pre as [|c pre IH]; [reflexivity|].
  cbn [all_space]. intros H. apply andb_prop in H as [Hc Hp].
  change (String c pre +:+ s) with (String c (pre +:+ s)).
  cbn [lstrip]. rewrite Hc. auto.
Qed.

Lemma rstrip_all_space post : all_space post = true -> rstrip post = EmptyString.
Proof.
  induction post as [|c post IH]; [reflexivity|].
  cbn [all_space]. intros H. apply andb_prop in H as [Hc Hp].
  cbn [rstrip]. now rewrite (IH Hp), Hc.
Qed.

Lemma rstrip_app_all_space s post :
  all_space post = true -> rstrip (s +:+ post) = rstrip s.
Proof.
  intros Hp. induction s as [|c s IH].
  - now apply rstrip_all_space.
  - change (String c s +:+ post) with (String c (s +:+ post)).
    cbn [rstrip]. now rewrite IH.
Qed.

Lemma strip_surrounded pre s post :
  all_space pre = true -> all_space post = true ->
  strip (pre +:+ s +:+ post) = strip s.
Proof.
  intros Hpre Hpost. unfold strip.
  rewrite <- !rstrip_lstrip, lstrip_all_space by assumption.
  rewrite !rstrip_lstrip, rstrip_app_all_space by assumption. reflexivity.
Qed.

End ParserFacts.

(** X1.  Parsing distributes over the comma: the tokens of [a + "," + b]
    are the tokens of [a] followed by the tokens of [b]. *)
Theorem parse_input_concat (a b : string) :
  parse_input (a +:+ "," +:+ b) = parse_input a ++ parse_input b.
Proof. apply parse_input_comma. Qed.

(** X2.  The echo line reads back: joining the parsed tokens with ", ", as
    [main] prints them, and parsing the text again gives the same tokens;
    no token holds a comma. *)
Theorem parse_input_echo_round_trip (arg : string) :
  parse_input (join ", " (parse_input arg)) = parse_input arg
  /\ forall t, In t (parse_input arg) -> occurs "," t = false.
Proof.
  split.
  - apply parse_input_join. intros t. apply parse_input_token.
  - intros t Ht. now apply parse_input_token in Ht.
Qed.

(** X3.  [normalize] ignores white space around the text and the case of
    its letters. *)
Theorem normalize_ignores_space_and_case (pre post s1 s2 : string) :
  all_space pre = true -> all_space post = true -> lower s1 = lower s2 ->
  normalize (pre +:+ s1 +:+ post) = normalize s2.
Proof.
  intros Hpre Hpost Hl. unfold normalize.
  rewrite strip_surrounded by assumption.
  now rewrite <- !strip_lower, Hl.
Qed.

Lemma normalize_ignores_space_and_case_witness :
  normalize ("  " +:+ "Olive OIL" +:+ " ") = normalize "olive oil".
Proof.
  apply (normalize_ignores_space_and_case "  " " " "Olive OIL" "olive oil");
    reflexivity.
Defined.

(** * More on the scorer *)

Section ScorerFacts.

Lemma count_positions_filter available ings :
  count_positions available ings
  = Z.of_nat
      (List.length
         (List.filter (fun i => bool_decide (normalize i ∈ available)) ings)).
Proof.
  unfold count_positions.
  pose proof (filter_nth_seq
                (fun i => bool_decide (normalize i ∈ available))
                EmptyString ings) as H.
  cbv beta in H. now rewrite H.
Qed.

Lemma filter_length_all {A : Type} (P : A -> bool) l :
  List.length (List.filter P l) = List.length l
  <-> forall x, In x l -> P x = true.
Proof.
  induction l as [|x l IH]; [simpl; tauto|].
  cbn [List.filter]. pose proof (List.filter_length_le P l) as Hle.
  destruct (P x) eqn:E; cbn [List.length].
  - split.
    + intros H y [<-|Hy]; [assumption|]. apply IH; [lia|assumption].
    + intros H. f_equal. apply IH. intros y Hy. apply H. now right.
  - split; [lia|]. intros H. specialize (H x (or_introl eq_refl)). congruence.
Qed.

Lemma filter_length_none {A : Type} (P : A -> bool) l :
  List.length (List.filter P l) = 0%nat
  <-> forall x, In x l -> P x = false.
Proof.
  induction l as [|x l IH]; [simpl; tauto|].
  cbn [List.filter]. destruct (P x) eqn:E; cbn [List.length].
  - split; [lia|]. intros H. specialize (H x (or_introl eq_refl)). congruence.
  - rewrite IH. split.
    + intros H y [<-|Hy]; auto.
    + intros H y Hy. apply H. now right.
Qed.

Lemma filter_length_incl {A : Type} (P Q : A -> bool) l :
  (forall x, P x = true -> Q x = true) ->
  (List.length (List.filter P l) <= List.length (List.filter Q l))%nat.
Proof.
  intros H. induction l as [|x l IH]; [reflexivity|].
  cbn [List.filter]. destruct (P x) eqn:E.
  - rewrite (H x E). cbn [List.length]. lia.
  - destruct (Q x); cbn [List.length]; lia.
Qed.

Lemma is_normal_true x : is_normal x = true <-> normalize x = x.
Proof. unfold is_normal. apply String.eqb_eq. Qed.

Lemma count_positions_normal available ings :
  count_positions (List.filter is_normal available) ings
  = count_positions available ings.
Proof.
  rewrite !count_positions_filter. do 2 f_equal.
  apply List.filter_ext. intros i. apply bool_decide_ext.
  rewrite !list_elem_of_In, List.filter_In, is_normal_true. split.
  - tauto.
  - intros H. split; [assumption|]. apply normalize_idem.
Qed.

Lemma entry_of_normal available r :
  entry_of (List.filter is_normal available) r = entry_of available r.
Proof. unfold entry_of. now rewrite count_positions_normal. Qed.

End ScorerFacts.

(** X4.  A recipe scores [matched = total] exactly when every one of its
    ingredients, normalized, is an available token, and [matched = 0]
    exactly when none is. *)
Theorem score_recipe_all_or_none (available : list string) (recipe : Recipe) :
  exists sc m t,
    score_recipe available recipe = Ok (sc, m, t)
    /\ (m = t <->
        forall i, In i (r_ingredients recipe) -> In (normalize i) available)
    /\ (m = 0 <->
        forall i, In i (r_ingredients recipe) -> ~ In (normalize i) available).
Proof.
  rewrite score_recipe_eq. do 3 eexists. split; [reflexivity|].
  rewrite count_positions_filter. unfold len. split.
  - rewrite Nat2Z.inj_iff, filter_length_all.
    split; intros H i Hi; specialize (H i Hi).
    + now apply bool_decide_eq_true, list_elem_of_In in H.
    + now apply bool_decide_eq_true, list_elem_of_In.
  - change 0 with (Z.of_nat 0). rewrite Nat2Z.inj_iff, filter_length_none.
    split; intros H i Hi; specialize (H i Hi).
    + apply bool_decide_eq_false in H. now rewrite <- list_elem_of_In.
    + apply bool_decide_eq_false. now rewrite list_elem_of_In.
Qed.

(** X5.  More available tokens never lower the count: if every token of
    [a1] is in [a2], a recipe matches at least as many ingredients against
    [a2], out of the same total, and a recipe that [a1] fully matches is
    fully matched by [a2]. *)
Theorem score_recipe_monotone (a1 a2 : list string) (recipe : Recipe) :
  (forall x : string, In x a1 -> In x a2) ->
  exists sc1 m1 sc2 m2 t,
    score_recipe a1 recipe = Ok (sc1, m1, t)
    /\ score_recipe a2 recipe = Ok (sc2, m2, t)
    /\ m1 <= m2 <= t
    /\ (m1 = t -> m2 = t).
Proof.
  intros Hincl. rewrite !score_recipe_eq. do 5 eexists.
  split; [reflexivity|]. split; [reflexivity|].
  pose proof (count_positions_bounds a2 (r_ingredients recipe)) as Hb.
  assert (Hle : count_positions a1 (r_ingredients recipe)
                <= count_positions a2 (r_ingredients recipe)).
  { rewrite !count_positions_filter. apply inj_le, filter_length_incl.
    intros i Hi. apply bool_decide_eq_true in Hi. apply bool_decide_eq_true.
    rewrite list_elem_of_In in *. auto. }
  split; lia.
Qed.

Lemma score_recipe_monotone_witness :
  exists sc1 m1 sc2 m2 t,
    score_recipe ["egg"] (mkRecipe "Omelette" ["egg"; "salt"]) = Ok (sc1, m1, t)
    /\ score_recipe ["salt"; "egg"] (mkRecipe "Omelette" ["egg"; "salt"])
       = Ok (sc2, m2, t)
    /\ m1 <= m2 <= t
    /\ (m1 = t -> m2 = t).
Proof.
  apply (score_recipe_monotone ["egg"] ["salt"; "egg"]).
  intros x [<-|[]]. simpl. tauto.
Defined.

(** X6.  [score_recipe] normalizes the recipe's ingredients but not the
    available tokens: a token that is not its own normalization (upper-case
    letters, white space around it) matches nothing, and dropping such
    tokens changes neither the score of any recipe nor the result of
    [find_matches]. *)
Theorem unnormalized_tokens_never_match (available : list string) :
  (forall recipe,
      score_recipe (List.filter is_normal available) recipe
      = score_recipe available recipe)
  /\ (forall recipes,
         find_matches (List.filter is_normal available) recipes
         = find_matches available recipes)
  /\ score_recipe ["Egg"; " milk"] (mkRecipe "Custard" ["egg"; "milk"])
     = Ok (zero, 0, 2).
Proof.
  split; [|split].
  - intros recipe. rewrite !score_recipe_eq.
    now rewrite count_positions_normal.
  - intros recipes. rewrite !find_matches_eq.
    assert (E : List.map (entry_of (List.filter is_normal available)) recipes
                = List.map (entry_of available) recipes)
      by (apply List.map_ext; intros r; apply entry_of_normal).
    now rewrite E.
  - vm_compute. reflexivity.
Qed.

(** * More on the matcher *)

Section MatcherFacts.

Lemma filter_length_split {A : Type} (P : A -> bool) l :
  (List.length (List.filter P l)
   + List.length (List.filter (fun x => negb (P x)) l))%nat
  = List.length l.
Proof.
  induction l as [|x l IH]; [reflexivity|].
  cbn [List.filter]. destruct (P x); cbn [negb List.length]; lia.
Qed.

Lemma In_listed available recipes res e :
  find_matches available recipes = Ok res ->
  In e (full_matches res) \/ In e (partial_matches res) ->
  exists r, In r recipes /\ e = entry_of available r.
Proof.
  rewrite find_matches_eq. intros [= <-]. cbn [full_matches partial_matches].
  rewrite In_full, In_partial.
  intros [[[r [Hr <-]] _]|[[r [Hr <-]] _]]; now exists r.
Qed.

Lemma filter_disjoint_Permutation {A : Type} (P Q : A -> bool) l :
  (forall x, P x = true -> Q x = false) ->
  Permutation (List.filter P l ++ List.filter Q l)
    (List.filter (fun x => P x || Q x) l).
Proof.
  intros H. induction l as [|x l IH]; [reflexivity|].
  cbn [List.filter]. destruct (P x) eqn:EP.
  - rewrite (H x EP). cbn [orb app]. now constructor.
  - cbn [orb]. destruct (Q x); [|assumption].
    rewrite <- Permutation_middle. now constructor.
Qed.

Lemma is_full_not_partial e : is_full e = true -> is_partial e = false.
Proof. unfold is_full, is_partial. now intros ->. Qed.

Lemma round_pos_same p : round_pos p p = 1%Q.
Proof.
  unfold round_pos, ulp_exp, ilog2, pow2_le.
  rewrite Z.sub_diag. cbn [Z.leb Z.compare].
  rewrite Z.pow_0_r, Z.mul_1_r, Z.leb_refl.
  change (Z.max (0 - 52) (-1074)) with (-52).
  change (0 <=? -52) with false. cbv iota.
  unfold rne.
  rewrite (Z.mul_comm (Z.pos p)), Z.div_mul, Z.mod_mul by discriminate.
  reflexivity.
Qed.

Lemma score_of_same t : 0 < t -> score_of t t = 1%Q.
Proof.
  intros Ht. unfold score_of.
  destruct t as [|p|p]; [lia| |lia].
  cbn [Z.eqb]. unfold round_b64, Qdiv, Qinv, Qmult, inject_Z. cbn [Qnum Qden].
  change (Z.pos p * Z.pos 1) with (Z.pos (p * 1)). cbv iota.
  change (1 * p)%positive with p.
  rewrite Pos.mul_1_r. apply round_pos_same.
Qed.

End MatcherFacts.

(** X7.  The numbers of an entry are those of the ingredient list it
    carries: [total] is its length, [matched] the number of its positions
    with an available ingredient, and [missing] the number of the others;
    the name and the list are those of a recipe of the catalog.  A full
    match misses nothing, a partial match misses at least one ingredient
    and not all. *)
Theorem entry_counts_its_ingredients (available : list string)
    (recipes : list Recipe) :
  exists res,
    find_matches available recipes = Ok res
    /\ (forall e, In e (full_matches res) \/ In e (partial_matches res) ->
          (exists r, In r recipes /\ name e = r_name r
                     /\ ingredients e = r_ingredients r)
          /\ total e = len (ingredients e)
          /\ matched e = count_positions available (ingredients e)
          /\ missing e
             = Z.of_nat
                 (List.length
                    (List.filter
                       (fun i => negb (bool_decide (normalize i ∈ available)))
                       (ingredients e))))
    /\ (forall e, In e (full_matches res) -> missing e = 0)
    /\ (forall e, In e (partial_matches res) -> 0 < missing e < total e).
Proof.
  destruct (find_matches available recipes) as [res|] eqn:E;
    [|rewrite find_matches_eq in E; discriminate].
  exists res. split; [reflexivity|]. split; [|split].
  - intros e He. destruct (In_listed _ _ _ _ E He) as [r [Hr ->]].
    cbn [entry_of name ingredients total matched missing].
    split; [now exists r|]. split; [reflexivity|]. split; [reflexivity|].
    rewrite count_positions_filter. unfold len.
    rewrite <- (filter_length_split
                  (fun i => bool_decide (normalize i ∈ available))
                  (r_ingredients r)).
    lia.
  - intros e He. rewrite find_matches_eq in E. injection E as <-.
    cbn [full_matches] in He. apply In_full in He as [[r [_ <-]] Hm].
    cbn [entry_of matched total missing] in *. lia.
  - intros e He. rewrite find_matches_eq in E. injection E as <-.
    cbn [partial_matches] in He. apply In_partial in He as [[r [_ <-]] Hm].
    cbn [entry_of matched total missing] in *. lia.
Qed.

(** X8.  The matcher neither loses nor repeats a recipe: the two lists
    together are, up to order, the entries of the recipes with
    [matched = total] or [matched > 0], one entry for each occurrence in
    the catalog; so they never hold more entries than the catalog has
    recipes, and an empty catalog gives two empty lists. *)
Theorem find_matches_keeps_each_recipe (available : list string)
    (recipes : list Recipe) :
  exists res,
    find_matches available recipes = Ok res
    /\ Permutation (full_matches res ++ partial_matches res)
         (List.filter
            (fun e => (matched e =? total e) || (0 <? matched e))
            (List.map (entry_of available) recipes))
    /\ (List.length (full_matches res) + List.length (partial_matches res)
        <= List.length recipes)%nat
    /\ (recipes = [] -> full_matches res = [] /\ partial_matches res = []).
Proof.
  rewrite find_matches_eq. eexists. split; [reflexivity|].
  cbn [full_matches partial_matches].
  assert (HP : Permutation
                 (sort_entries
                    (List.filter is_full (List.map (entry_of available) recipes))
                  ++ sort_entries
                       (List.filter is_partial
                          (List.map (entry_of available) recipes)))
                 (List.filter
                    (fun e => (matched e =? total e) || (0 <? matched e))
                    (List.map (entry_of available) recipes))).
  { rewrite !sort_entries_Permutation.
    rewrite (filter_disjoint_Permutation is_full is_partial)
      by apply is_full_not_partial.
    erewrite List.filter_ext; [reflexivity|].
    intros e. unfold is_full, is_partial.
    destruct (matched e =? total e); reflexivity. }
  split; [exact HP|]. split.
  - rewrite <- List.length_app, (Permutation_length HP).
    etransitivity; [apply List.filter_length_le|].
    now rewrite List.length_map.
  - intros ->. split; reflexivity.
Qed.

(** X9.  Every full match has the score 1.0, or 0.0 when the recipe has no
    ingredient: within the full matches the ranking is by matched count,
    then by name. *)
Theorem full_match_score (available : list string) (recipes : list Recipe) :
  exists res,
    find_matches available recipes = Ok res
    /\ forall e, In e (full_matches res) ->
        matched e = total e
        /\ score e = (if total e =? 0 then zero else 1%Q).
Proof.
  rewrite find_matches_eq. eexists. split; [reflexivity|].
  cbn [full_matches]. intros e He.
  apply In_full in He as [[r [_ <-]] Hm]. split; [assumption|].
  cbn [entry_of matched total score] in *. rewrite Hm.
  destruct (Z.eqb_spec (len (r_ingredients r)) 0) as [E0|E0].
  - now rewrite E0.
  - rewrite score_of_same by (unfold len in *; lia). reflexivity.
Qed.

(** * Ties and the order of the catalog *)

Section Stability.

Local Arguments key_lt : simpl never.
Local Arguments sort_key : simpl never.

Lemma same_key_ranks x y :
  same_key x y = true <-> ranks_before x y /\ ranks_before y x.
Proof.
  unfold same_key. rewrite andb_true_iff, !negb_true_iff.
  rewrite <- !not_after_ranks. unfold not_after. tauto.
Qed.

Lemma key_lt_not_ranks x y :
  key_lt (sort_key x) (sort_key y) = true -> ~ ranks_before y x.
Proof.
  intros H Hr. apply not_after_ranks in Hr. unfold not_after in Hr. congruence.
Qed.

Lemma ranks_before_refl x : ranks_before x x.
Proof. now destruct (ranks_before_total x x). Qed.

Lemma same_key_fields x y :
  same_key x y = true
  <-> (score x == score y)%Q /\ matched x = matched y /\ name x = name y.
Proof.
  rewrite same_key_ranks. split.
  - intros [Hxy Hyx].
    assert (Es : (score x == score y)%Q).
    { destruct Hxy as [L|[E _]]; [|assumption].
      destruct Hyx as [L'|[E' _]]; [|now symmetry].
      exfalso. apply (Qlt_irrefl (score x)). now apply Qlt_trans with (score y). }
    assert (Em : matched x = matched y).
    { destruct Hxy as [L|[_ Hxy]];
        [rewrite Es in L; now apply Qlt_irrefl in L|].
      destruct Hyx as [L|[_ Hyx]];
        [rewrite Es in L; now apply Qlt_irrefl in L|].
      destruct Hxy as [?|[? _]], Hyx as [?|[? _]]; lia. }
    split; [assumption|]. split; [assumption|].
    apply String.leb_antisym.
    + now apply ranks_before_tie.
    + apply ranks_before_tie; [assumption|now symmetry|now symmetry].
  - intros [Es [Em En]]. split; right.
    + split; [assumption|]. right. split; [assumption|].
      rewrite En. apply Is_true_true. apply (reflexivity (R := String.le)).
    + split; [now symmetry|]. right. split; [now symmetry|].
      rewrite En. apply Is_true_true. apply (reflexivity (R := String.le)).
Qed.

Lemma Sorted_not_after_ranked l :
  Sorted not_after l -> StronglySorted ranks_before l.
Proof.
  intros H. apply Sorted_StronglySorted.
  - intros x y z. apply ranks_before_trans.
  - induction H as [|y l' Hs IH Hhd]; constructor; [assumption|].
    destruct Hhd; constructor. now apply not_after_ranks.
Qed.

Lemma filter_nothing {A : Type} (P : A -> bool) l :
  (forall x, In x l -> P x = false) -> List.filter P l = [].
Proof.
  induction l as [|x l IH]; intros H; [reflexivity|].
  cbn [List.filter]. rewrite (H x (or_introl eq_refl)).
  apply IH. intros y Hy. apply H. now right.
Qed.

Lemma insert_by_same_key e0 x acc :
  Sorted not_after acc ->
  List.filter (same_key e0) (insert_by x acc)
  = List.filter (same_key e0) acc ++ List.filter (same_key e0) [x].
Proof.
  intros Hs. apply Sorted_not_after_ranked in Hs.
  induction Hs as [|y acc Hacc IH Hy]; [reflexivity|].
  cbn [insert_by]. destruct (key_lt (sort_key x) (sort_key y)) eqn:E.
  - cbn [List.filter]. destruct (same_key e0 x) eqn:Ex.
    + assert (Hnone : List.filter (same_key e0) (y :: acc) = []).
      { apply filter_nothing. intros z Hz. apply not_true_is_false. intros Ez.
        apply same_key_ranks in Ex as [Hex Hxe], Ez as [Hez Hze].
        apply (key_lt_not_ranks _ _ E).
        assert (Hyz : ranks_before y z).
        { destruct Hz as [<-|Hz]; [apply ranks_before_refl|].
          rewrite List.Forall_forall in Hy. now apply Hy. }
        apply ranks_before_trans with z; [assumption|].
        now apply ranks_before_trans with e0. }
      cbn [List.filter] in Hnone. rewrite Hnone. reflexivity.
    + now rewrite app_nil_r.
  - cbn [List.filter]. rewrite IH.
    destruct (same_key e0 y); reflexivity.
Qed.

Lemma fold_insert_same_key e0 l acc :
  Sorted not_after acc ->
  List.filter (same_key e0) (fold_left (fun acc x => insert_by x acc) l acc)
  = List.filter (same_key e0) acc ++ List.filter (same_key e0) l.
Proof.
  revert acc. induction l as [|x l IH]; intros acc Hacc.
  - cbn [fold_left List.filter]. now rewrite app_nil_r.
  - cbn [fold_left]. rewrite IH by now apply insert_by_Sorted.
    rewrite insert_by_same_key by assumption.
    rewrite <- app_assoc. cbn [List.filter].
    destruct (same_key e0 x); reflexivity.
Qed.

Lemma sort_entries_stable e0 l :
  List.filter (same_key e0) (sort_entries l) = List.filter (same_key e0) l.
Proof. apply (fold_insert_same_key e0 l []). constructor. Qed.

End Stability.

(** X10.  The sort is stable: entries with the same key, that is the same
    rounded score, matched count and name, stand in each list in the order
    of their recipes in the catalog. *)
Theorem ties_keep_catalog_order (available : list string)
    (recipes : list Recipe) :
  exists res,
    find_matches available recipes = Ok res
    /\ (forall e0,
          List.filter (same_key e0) (full_matches res)
          = List.filter (same_key e0)
              (List.filter is_full (List.map (entry_of available) recipes)))
    /\ (forall e0,
          List.filter (same_key e0) (partial_matches res)
          = List.filter (same_key e0)
              (List.filter is_partial
                 (List.map (entry_of available) recipes)))
    /\ (forall e1 e2,
          same_key e1 e2 = true
          <-> (score e1 == score e2)%Q /\ matched e1 = matched e2
              /\ name e1 = name e2).
Proof.
  rewrite find_matches_eq. eexists. split; [reflexivity|].
  cbn [full_matches partial_matches].
  split; [|split].
  - intros e0. apply sort_entries_stable.
  - intros e0. apply sort_entries_stable.
  - apply same_key_fields.
Qed.

(** X11.  When no ingredient of any recipe is available and no recipe is
    without ingredients, both lists are empty and the presenter prints the
    two "no matches" messages under the two headings. *)
Theorem nothing_matches (available : list string) (recipes : list Recipe) :
  Forall (fun r =>
            r_ingredients r <> []
            /\ Forall (fun i => ~ In (normalize i) available) (r_ingredients r))
    recipes ->
  exists res,
    find_matches available recipes = Ok res
    /\ full_matches res = [] /\ partial_matches res = []
    /\ pretty_print res
       = print (nl +:+ "=== Full matches (you can fully make these) ===")
         +:+ print "No full matches found."
         +:+ print (nl +:+ "=== Partial matches (ranked) ===")
         +:+ print "No partial matches found.".
Proof.
  intros H. rewrite find_matches_eq.
  assert (Hm : forall r, In r recipes ->
                 matched (entry_of available r) = 0
                 /\ total (entry_of available r) <> 0).
  { intros r Hr. rewrite List.Forall_forall in H.
    destruct (H r Hr) as [Hne Hnone]. cbn [entry_of matched total]. split.
    - rewrite count_positions_filter. change 0 with (Z.of_nat 0). f_equal.
      apply filter_length_none. intros i Hi. apply bool_decide_eq_false.
      rewrite list_elem_of_In. rewrite List.Forall_forall in Hnone. auto.
    - unfold len. destruct (r_ingredients r); [congruence|]. simpl. lia. }
  assert (Hf : List.filter is_full (List.map (entry_of available) recipes) = []).
  { apply filter_nothing. intros e He.
    apply List.in_map_iff in He as [r [<- Hr]].
    destruct (Hm r Hr) as [H0 Ht]. unfold is_full. apply Z.eqb_neq. lia. }
  assert (Hp : List.filter is_partial (List.map (entry_of available) recipes)
               = []).
  { apply filter_nothing. intros e He.
    apply List.in_map_iff in He as [r [<- Hr]].
    destruct (Hm r Hr) as [H0 Ht]. unfold is_partial. rewrite H0.
    apply andb_false_r. }
  rewrite Hf, Hp. eexists. split; [reflexivity|]. repeat split.
Qed.

Lemma nothing_matches_witness :
  exists res,
    find_matches ["chocolate"] SAMPLE_RECIPES = Ok res
    /\ full_matches res = [] /\ partial_matches res = []
    /\ pretty_print res
       = print (nl +:+ "=== Full matches (you can fully make these) ===")
         +:+ print "No full matches found."
         +:+ print (nl +:+ "=== Partial matches (ranked) ===")
         +:+ print "No partial matches found.".
Proof.
  apply (nothing_matches ["chocolate"] SAMPLE_RECIPES).
  repeat constructor; try discriminate; vm_compute; intros [H|[]]; discriminate.
Defined.

(** * Bounds on the score and on the percentage *)

Section Bounds.

Lemma rne_le a b K : 0 < b -> a <= K * b -> rne a b <= K.
Proof.
  intros Hb Ha. unfold rne.
  pose proof (Z.div_mod a b) as Hd. pose proof (Z.mod_pos_bound a b Hb) as Hm.
  destruct (Z.compare_spec (2 * (a mod b)) b);
    [destruct (Z.even (a / b))| |]; nia.
Qed.

(** Rounding does not cross an integer below [2^52]. *)
Lemma round_pos_le n d K :
  Z.pos n <= K * Z.pos d -> K < 2 ^ 52 ->
  (round_pos n d <= inject_Z K)%Q.
Proof.
  intros Hn HK. unfold round_pos, scale2.
  destruct (ilog2_spec n d) as [Hlo _].
  destruct (Z.leb_spec 0 (ulp_exp n d)) as [Hq|Hq].
  - exfalso.
    assert (He : 52 <= ilog2 n d) by (unfold ulp_exp in Hq; lia).
    replace (ilog2 n d) with (ilog2 n d - 0) in Hlo by lia.
    rewrite pow2_le_iff in Hlo by lia. rewrite Z.pow_0_r in Hlo.
    assert (Hp : 2 ^ 52 <= 2 ^ ilog2 n d) by (apply Z.pow_le_mono_r; lia).
    set (P := 2 ^ ilog2 n d) in *.
    change (2 ^ 52) with 4503599627370496 in *. nia.
  - rewrite Qred_correct.
    assert (HP : 0 < 2 ^ (- ulp_exp n d)) by (apply Z.pow_pos_nonneg; lia).
    set (P := 2 ^ (- ulp_exp n d)) in *.
    assert (Hm : rne (Z.pos n * P) (Z.pos d) <= K * P)
      by (apply rne_le; [reflexivity|nia]).
    unfold Qle. cbn [Qnum Qden inject_Z]. rewrite Z2Pos.id by assumption. lia.
Qed.

Lemma round_b64_le x K :
  (x <= inject_Z K)%Q -> 0 <= K < 2 ^ 52 -> (round_b64 x <= inject_Z K)%Q.
Proof.
  intros Hx HK. destruct x as [[|n|n] d]; unfold round_b64; cbn [Qnum Qden].
  - unfold Qle. simpl. lia.
  - apply round_pos_le; [|lia]. unfold Qle in Hx. simpl in Hx. lia.
  - rewrite Qred_correct. apply Qle_trans with 0%Q.
    + pose proof (round_pos_nonneg n d) as H.
      apply Qopp_le_compat in H. exact H.
    + unfold Qle. simpl. lia.
Qed.

Lemma round3_le_1 x : (0 <= x)%Q -> (x <= 1)%Q -> (round3 x <= 1)%Q.
Proof.
  intros H0 H1. unfold round3. apply (round_b64_le _ 1); [|split; [lia|reflexivity]].
  destruct x as [n d]. cbn [Qnum Qden].
  assert (Hk : rne (n * 1000) (Z.pos d) <= 1000).
  { apply rne_le; [reflexivity|]. unfold Qle in H1. simpl in H1. lia. }
  unfold Qle. simpl. lia.
Qed.

Lemma mul_int_le x n :
  (0 <= x)%Q -> (x <= 1)%Q -> 0 <= n < 2 ^ 52 ->
  (mul_int x n <= inject_Z n)%Q.
Proof.
  intros H0 H1 Hn. unfold mul_int. apply round_b64_le; [|assumption].
  destruct x as [a d]. unfold Qle in *. simpl in *. nia.
Qed.

Lemma to_int_bounds y K :
  (0 <= y)%Q -> (y <= inject_Z K)%Q -> 0 <= to_int y <= K.
Proof.
  intros H0 HK. destruct (to_int_floor y H0) as [Hlo Hhi]. split.
  - assert (H : (inject_Z 0 < inject_Z (to_int y + 1))%Q).
    { rewrite inject_Z_plus. now apply Qle_lt_trans with y. }
    rewrite <- Zlt_Qlt in H. lia.
  - rewrite Zle_Qle. now apply Qle_trans with y.
Qed.

Lemma entry_of_score_le_1 available r : (score (entry_of available r) <= 1)%Q.
Proof.
  cbn [entry_of score].
  pose proof (count_positions_bounds available (r_ingredients r)) as Hb.
  apply round3_le_1.
  - apply score_of_nonneg; [lia|unfold len; lia].
  - now apply score_of_le_1.
Qed.

Lemma pretty_print_full res e :
  In e (full_matches res) ->
  exists before after, pretty_print res = before +:+ full_line e +:+ after.
Proof.
  intros Hin. unfold pretty_print.
  destruct (full_matches res) as [|x l] eqn:E; [destruct Hin|].
  destruct (print_each_In full_line e (x :: l) Hin) as [before [after ->]].
  exists (print (nl +:+ "=== Full matches (you can fully make these) ===")
          +:+ before).
  exists (after
          +:+ print (nl +:+ "=== Partial matches (ranked) ===")
          +:+ match partial_matches res with
              | [] => print "No partial matches found."
              | _ :: _ => print_each partial_lines (partial_matches res)
              end).
  now rewrite !append_assoc.
Qed.

End Bounds.

(** X12.  The score of every entry lies between 0.0 and 1.0, and the
    percentage computed from it, [int(score * 100)], between 0 and 100. *)
Theorem score_and_percentage_bounds (available : list string)
    (recipes : list Recipe) :
  exists res,
    find_matches available recipes = Ok res
    /\ forall e, In e (full_matches res) \/ In e (partial_matches res) ->
        (0 <= score e)%Q /\ (score e <= 1)%Q
        /\ 0 <= to_int (mul_int (score e) 100) <= 100.
Proof.
  destruct (find_matches available recipes) as [res|] eqn:E;
    [|rewrite find_matches_eq in E; discriminate].
  exists res. split; [reflexivity|]. intros e He.
  destruct (In_listed _ _ _ _ E He) as [r [_ ->]].
  pose proof (entry_of_score_nonneg available r) as H0.
  pose proof (entry_of_score_le_1 available r) as H1.
  split; [assumption|]. split; [assumption|].
  apply to_int_bounds.
  - apply mul_int_nonneg; [assumption|lia].
  - apply mul_int_le; [assumption|assumption|split; [lia|reflexivity]].
Qed.

(** X13.  For every full match the presenter prints the line
    ["- <name> (matches: <n>/<n>)"], with the same number [n = total]
    twice. *)
Theorem full_entry_rendering (available : list string)
    (recipes : list Recipe) :
  exists res,
    find_matches available recipes = Ok res
    /\ forall e, In e (full_matches res) ->
        exists before after : string,
          pretty_print res
          = before
            +:+ print ("- " +:+ name e +:+ " (matches: "
                       +:+ str_int (total e) +:+ "/" +:+ str_int (total e)
                       +:+ ")")
            +:+ after.
Proof.
  rewrite find_matches_eq. eexists. split; [reflexivity|].
  intros e He.
  destruct (pretty_print_full _ e He) as [before [after Hout]].
  cbn [full_matches] in He. apply In_full in He as [_ Hm].
  exists before, after. rewrite Hout. unfold full_line. now rewrite Hm.
Qed.

(** X14.  On input with at least one ingredient [main] does not raise: it
    prints the prompt when there is no argument, then the echo line with
    the parsed tokens joined by ", ", then the two sections for the matches
    of these tokens against the sample catalog.  With an argument, neither
    the line on standard input nor further arguments matter. *)
Theorem main_reports_matches (argv : list string) (line : string) :
  let text := match argv with _ :: user_input :: _ => user_input | _ => line end in
  parse_input text <> [] ->
  exists res,
    find_matches (parse_input text) SAMPLE_RECIPES = Ok res
    /\ main argv line
       = Ok (match argv with _ :: _ :: _ => EmptyString | _ => prompt end
             +:+ print ("Available (normalized): "
                        +:+ join ", " (parse_input text))
             +:+ pretty_print res).
Proof.
  intros text Hne. rewrite find_matches_eq. eexists. split; [reflexivity|].
  unfold main, main_with.
  destruct argv as [|prog [|user_input argv]]; subst text;
    (destruct (parse_input _) as [|t ts] eqn:E; [congruence|]);
    rewrite find_matches_eq; cbn [mbind result_bind];
    now rewrite append_assoc.
Qed.

Lemma main_reports_matches_witness :
  exists res,
    find_matches (parse_input "Bread, cheese,BUTTER") SAMPLE_RECIPES = Ok res
    /\ main ["recipe_finder.py"; "Bread, cheese,BUTTER"; "more"] "ignored"
       = Ok (EmptyString
             +:+ print ("Available (normalized): "
                        +:+ join ", " (parse_input "Bread, cheese,BUTTER"))
             +:+ pretty_print res).
Proof.
  apply (main_reports_matches
           ["recipe_finder.py"; "Bread, cheese,BUTTER"; "more"] "ignored").
  vm_compute. discriminate.
Defined.

(** * The float product is the nearest binary64 value *)

Section Nearest.


















End Nearest.

(** * The percentage of a partial match *)


